(** * spot: song search and preview-link extraction

    A shallow embedding of [src/index.ts] (the TypeScript source of the
    package, functions [createSpotifyApi], [getSpotifyLinks] and
    [searchAndGetLinks]) together with the properties of the search,
    slice, scrape and aggregation pipeline.

    Modelling choices.
    - JavaScript strings are [string]; numbers that reach the code are the
      limits, modelled as integers [Z] (on integers the conversion that
      [Array.prototype.slice] applies to its bounds is the identity).
    - An exception is a value of [Thrown]; code that may throw returns a
      [Result], and [try]/[catch] is a match on it.
    - The outside world (process environment, catalog client, HTTP client,
      markup parser, and the order in which pending requests settle) is a
      record [World] of functions; every theorem quantifies over it. *)

From Stdlib Require Import String Ascii List ZArith Bool Arith Lia.
Import ListNotations.

Local Open Scope string_scope.
Local Open Scope list_scope.
Local Open Scope Z_scope.

(** ** JavaScript primitives used by the source *)

Module Js.

(** A thrown value: an instance of [Error] carrying its [message], or any
    other value (a thrown string, number, plain object, ...), of which
    only a printable description is kept. *)
Inductive Thrown : Type :=
| ErrorInstance (message : string)
| NonError (description : string).

(** The outcome of an expression that may throw (for an awaited promise:
    fulfilled with a value, or rejected with a reason). *)
Inductive Result (A : Type) : Type :=
| Ok (value : A)
| Throw (reason : Thrown).

Arguments Ok {A} value.
Arguments Throw {A} reason.

Definition bind {A B : Type} (r : Result A) (k : A -> Result B) : Result B :=
  match r with
  | Ok a => k a
  | Throw e => Throw e
  end.

(** Truthiness of a string: every string but the empty one. *)
Definition truthy (s : string) : bool :=
  match s with
  | EmptyString => false
  | String _ _ => true
  end.

(** Truthiness of a possibly undefined string. *)
Definition truthy_opt (s : option string) : bool :=
  match s with
  | None => false
  | Some s' => truthy s'
  end.

(** [String.prototype.includes]: the needle occurs at some position. *)
Fixpoint includes (hay needle : string) : bool :=
  String.prefix needle hay ||
  match hay with
  | EmptyString => false
  | String _ rest => includes rest needle
  end.

(** [Array.prototype.join]. *)
Definition join (sep : string) (parts : list string) : string :=
  String.concat sep parts.

(** [items.slice(0, end)] for an integer [end]: a negative bound counts
    from the end of the array, and the bound is clamped to the length. *)
Definition slice0 {A : Type} (items : list A) (end_ : Z) : list A :=
  let len := Z.of_nat (List.length items) in
  let final := if end_ <? 0 then Z.max (len + end_) 0 else Z.min end_ len in
  firstn (Z.to_nat final) items.

(** A [Set<string>] as the list of its members in insertion order. *)
Definition Set_has (s : list string) (v : string) : bool :=
  existsb (String.eqb v) s.

Definition Set_add (s : list string) (v : string) : list string :=
  if Set_has s v then s else s ++ [v].

(** Position of the first rejection among promises [ps] numbered from
    [i]: the rejected promise that settles earliest under [settle] (on
    equal times, the one created first). *)
Fixpoint firstRejection {A : Type} (settle : nat -> nat) (i : nat)
         (ps : list (Result A)) : option (nat * Thrown) :=
  match ps with
  | [] => None
  | p :: rest =>
      let later := firstRejection settle (S i) rest in
      match p with
      | Ok _ => later
      | Throw e =>
          match later with
          | Some (j, e') =>
              if (settle j <? settle i)%nat then Some (j, e') else Some (i, e)
          | None => Some (i, e)
          end
      end
  end.

(** Promise [k] settles before promise [j] does, the one created first
    winning a tie. *)
Definition settlesFirst (settle : nat -> nat) (k j : nat) : Prop :=
  (settle k < settle j)%nat \/ (settle k = settle j /\ k <= j)%nat.

(** The fulfilment values, in the order of the promises. *)
Fixpoint fulfilled {A : Type} (ps : list (Result A)) : list A :=
  match ps with
  | [] => []
  | Ok a :: rest => a :: fulfilled rest
  | Throw _ :: rest => fulfilled rest
  end.

(** [await Promise.all(ps)]: rejected with the reason of the first
    promise to reject, otherwise fulfilled with all values in the order
    of [ps], whatever the order in which they settled. *)
Definition Promise_all {A : Type} (settle : nat -> nat)
           (ps : list (Result A)) : Result (list A) :=
  match firstRejection settle 0 ps with
  | Some (_, e) => Throw e
  | None => Ok (fulfilled ps)
  end.

End Js.

Import Js.

Notation "x <- c ;; k" := (Js.bind c (fun x => k))
  (at level 61, c at next level, right associativity).

(** The double-quote character and the one-character string holding it. *)
Definition dquote : string := String (ascii_of_nat 34) EmptyString.

(** ** Data model *)

(** The catalog's records (the fields of [SpotifyApi.TrackObjectFull] that
    the source reads). *)
Module SpotifyApi.

Record ArtistObjectSimplified : Type := {
  artist_name : string
}.

Record AlbumObjectSimplified : Type := {
  album_name : string;
  release_date : string
}.

Record TrackObjectFull : Type := {
  name : string;
  artists : list ArtistObjectSimplified;
  external_urls_spotify : string;
  id : string;
  album : AlbumObjectSimplified;
  popularity : Z;
  duration_ms : Z
}.

(** The body of a search response: [tracks] may be absent; when present
    it holds the sequence [tracks.items]. *)
Record SearchResponse : Type := {
  tracks : option (list TrackObjectFull)
}.

End SpotifyApi.

(** Track information returned by the search. *)
Record TrackInfo : Type := {
  name : string;
  spotifyUrl : string;
  previewUrls : list string;
  trackId : string;
  albumName : string;
  releaseDate : string;
  popularity : Z;
  durationMs : Z
}.

(** Search result containing all tracks found; [searchQuery] and [error]
    are optional properties, [results] is not. *)
Record SearchResult : Type := {
  success : bool;
  searchQuery : option string;
  results : list TrackInfo;
  error : option string
}.

(** The second argument of [searchAndGetLinks]:
    [artistOrLimit?: string | number]. *)
Inductive ArtistOrLimit : Type :=
| ArgString (artist : string)
| ArgNumber (limit : Z)
| ArgUndefined.

(** The configured catalog client: its credentials and, once set, its
    access token. *)
Record SpotifyWebApi : Type := {
  clientId : string;
  clientSecret : string;
  accessToken : option string
}.

Definition setAccessToken (api : SpotifyWebApi) (token : string) : SpotifyWebApi :=
  {| clientId := clientId api;
     clientSecret := clientSecret api;
     accessToken := Some token |}.

(** An element of a parsed document: [attribs] may be missing; when
    present it maps attribute names to values, kept in the order in which
    [Object.values] enumerates them. *)
Record Element : Type := {
  attribs : option (list (string * string))
}.

Definition Object_values (attrs : list (string * string)) : list string :=
  map snd attrs.

(** ** The outside world *)

Record World : Type := {
  (** [process.env.SPOTIFY_CLIENT_ID] and [process.env.SPOTIFY_CLIENT_SECRET] *)
  env_SPOTIFY_CLIENT_ID : option string;
  env_SPOTIFY_CLIENT_SECRET : option string;
  (** [spotifyApi.clientCredentialsGrant()], giving [data.body.access_token] *)
  clientCredentialsGrant : SpotifyWebApi -> Result string;
  (** [spotifyApi.searchTracks(searchQuery)], giving [searchResults.body] *)
  searchTracks : SpotifyWebApi -> string -> Result SpotifyApi.SearchResponse;
  (** [axios.get(url)], giving [response.data] *)
  axios_get : string -> Result string;
  (** [cheerio.load(html)] followed by the selection of every element, in
      document order *)
  cheerio_load : string -> Result (list Element);
  (** the time at which the extraction of the i-th retained candidate
      settles *)
  settleTime : nat -> nat
}.

(** ** The program *)

(** [error instanceof Error ? error.message : 'Unknown error'] *)
Definition errorMessage (error : Thrown) : string :=
  match error with
  | ErrorInstance message => message
  | NonError _ => "Unknown error"
  end.

(** [createSpotifyApi]: the client built from the two environment
    variables; throws when either is unset or empty. *)
Definition createSpotifyApi (w : World) : Result SpotifyWebApi :=
  let clientId := env_SPOTIFY_CLIENT_ID w in
  let clientSecret := env_SPOTIFY_CLIENT_SECRET w in
  match clientId, clientSecret with
  | Some id, Some secret =>
      if negb (truthy id) || negb (truthy secret)
      then Throw (ErrorInstance
        "SPOTIFY_CLIENT_ID and SPOTIFY_CLIENT_SECRET environment variables are required")
      else Ok {| clientId := id; clientSecret := secret; accessToken := None |}
  | _, _ =>
      Throw (ErrorInstance
        "SPOTIFY_CLIENT_ID and SPOTIFY_CLIENT_SECRET environment variables are required")
  end.

(** The marker looked for in attribute values. *)
Definition scdnMarker : string := "p.scdn.co".

(** The inner [forEach] of [getSpotifyLinks], over the values of one
    element: [if (value && typeof value === 'string' &&
    value.includes('p.scdn.co')) scdnLinks.add(value)]. *)
Definition scanValues (scdnLinks : list string) (values : list string) : list string :=
  fold_left
    (fun links value =>
       if truthy value && includes value scdnMarker
       then Set_add links value
       else links)
    values scdnLinks.

(** The outer [each] of [getSpotifyLinks], over every element:
    [if ('attribs' in element && element.attribs) ...]. *)
Definition scanElements (scdnLinks : list string) (elements : list Element) : list string :=
  fold_left
    (fun links element =>
       match attribs element with
       | Some attrs => scanValues links (Object_values attrs)
       | None => links
       end)
    elements scdnLinks.

(** The [try] block of [getSpotifyLinks]. *)
Definition getSpotifyLinks_try (w : World) (url : string) : Result (list string) :=
  html <- axios_get w url ;;
  elements <- cheerio_load w html ;;
  let scdnLinks := scanElements [] elements in
  Ok scdnLinks.

(** [getSpotifyLinks]: fetches a track page and extracts the CDN links;
    any failure is rethrown as an [Error] with a prefixed message. *)
Definition getSpotifyLinks (w : World) (url : string) : Result (list string) :=
  match getSpotifyLinks_try w url with
  | Ok links => Ok links
  | Throw error =>
      let errorMessage := errorMessage error in
      Throw (ErrorInstance ("Failed to fetch preview URLs: " ++ errorMessage))
  end.

(** The default value of the third parameter: [limit: number = 5]. *)
Definition limitOrDefault (limit : option Z) : Z :=
  match limit with
  | Some n => n
  | None => 5
  end.

(** The parameter parsing of [searchAndGetLinks]: the pair
    [(artist, actualLimit)] after the [if]/[else if] chain. *)
Definition parseParameters (artistOrLimit : ArtistOrLimit) (limit : option Z)
  : option string * Z :=
  match artistOrLimit with
  | ArgString s => (Some s, limitOrDefault limit)
  | ArgNumber n => (None, n)
  | ArgUndefined => (None, 5)
  end.

(** The construction of the search query: when [artist] is truthy, the
    template with the song name and the artist each between double
    quotes, after [track:] and [artist:]; otherwise the song name. *)
Definition buildSearchQuery (songName : string) (artist : option string) : string :=
  match artist with
  | Some a =>
      if truthy a
      then "track:" ++ dquote ++ songName ++ dquote ++ " artist:" ++ dquote ++ a ++ dquote
      else songName
  | None => songName
  end.

(** The callback mapped over the retained tracks. *)
Definition trackToInfo (w : World) (track : SpotifyApi.TrackObjectFull) : Result TrackInfo :=
  let spotifyUrl := SpotifyApi.external_urls_spotify track in
  previewUrls <- getSpotifyLinks w spotifyUrl ;;
  Ok {| name := SpotifyApi.name track ++ " - " ++
                join ", " (map SpotifyApi.artist_name (SpotifyApi.artists track));
        spotifyUrl := spotifyUrl;
        previewUrls := previewUrls;
        trackId := SpotifyApi.id track;
        albumName := SpotifyApi.album_name (SpotifyApi.album track);
        releaseDate := SpotifyApi.release_date (SpotifyApi.album track);
        popularity := SpotifyApi.popularity track;
        durationMs := SpotifyApi.duration_ms track |}.

(** The result returned on a failure: [{ success: false, error, results: [] }]. *)
Definition failureResult (message : string) : SearchResult :=
  {| success := false; searchQuery := None; results := []; error := Some message |}.

(** The part of the [try] block of [searchAndGetLinks] that follows the
    search: the test for zero matches, the slice, the fan-out and the
    successful return. *)
Definition processSearchResults (w : World) (searchQuery : string) (actualLimit : Z)
           (body : SpotifyApi.SearchResponse) : Result SearchResult :=
  match SpotifyApi.tracks body with
  | None => Ok (failureResult "No songs found")
  | Some [] => Ok (failureResult "No songs found")
  | Some items =>
      let tracks := slice0 items actualLimit in
      results <- Promise_all (settleTime w) (map (trackToInfo w) tracks) ;;
      Ok {| success := true;
            searchQuery := Some searchQuery;
            results := results;
            error := None |}
  end.

(** The [try] block of [searchAndGetLinks]. *)
Definition searchAndGetLinks_try (w : World) (songName : option string)
           (artistOrLimit : ArtistOrLimit) (limit : option Z) : Result SearchResult :=
  songName <- (match songName with
               | Some s => if negb (truthy s)
                           then Throw (ErrorInstance "Song name is required")
                           else Ok s
               | None => Throw (ErrorInstance "Song name is required")
               end) ;;
  let '(artist, actualLimit) := parseParameters artistOrLimit limit in
  spotifyApi <- createSpotifyApi w ;;
  access_token <- clientCredentialsGrant w spotifyApi ;;
  let spotifyApi := setAccessToken spotifyApi access_token in
  let searchQuery := buildSearchQuery songName artist in
  searchResults <- searchTracks w spotifyApi searchQuery ;;
  processSearchResults w searchQuery actualLimit searchResults.

(** [searchAndGetLinks]: search for songs and get their preview URLs. A
    missing first argument is [None]; a missing third argument is [None]. *)
Definition searchAndGetLinks (w : World) (songName : option string)
           (artistOrLimit : ArtistOrLimit) (limit : option Z) : SearchResult :=
  match searchAndGetLinks_try w songName artistOrLimit limit with
  | Ok result => result
  | Throw error =>
      let errorMessage := errorMessage error in
      {| success := false; searchQuery := None; results := []; error := Some errorMessage |}
  end.

(** ** Notions used to state the properties *)

(** Every attribute value of a document, in the order of the scan:
    element by element, and within an element in the order of
    [Object.values]. *)
Definition attributeValues (elements : list Element) : list string :=
  flat_map
    (fun element =>
       match attribs element with
       | Some attrs => Object_values attrs
       | None => []
       end)
    elements.

(** The effective limit of a call: the second component of the parsed
    parameters. *)
Definition effectiveLimit (artistOrLimit : ArtistOrLimit) (limit : option Z) : Z :=
  snd (parseParameters artistOrLimit limit).

(** The search query of a call with a non-empty song name. *)
Definition resolvedQuery (songName : string) (artistOrLimit : ArtistOrLimit)
           (limit : option Z) : string :=
  buildSearchQuery songName (fst (parseParameters artistOrLimit limit)).

(** The call passed validation, built its client, obtained a token and
    got the answer [body] from the catalog for its query. *)
Definition CatalogAnswered (w : World) (songName : option string)
           (artistOrLimit : ArtistOrLimit) (limit : option Z)
           (song : string) (body : SpotifyApi.SearchResponse) : Prop :=
  songName = Some song /\ truthy song = true /\
  exists api token,
    createSpotifyApi w = Ok api /\
    clientCredentialsGrant w api = Ok token /\
    searchTracks w (setAccessToken api token)
                 (resolvedQuery song artistOrLimit limit) = Ok body.

(** The candidates retained by a call: the slice of the catalog items. *)
Definition retained (artistOrLimit : ArtistOrLimit) (limit : option Z)
           (items : list SpotifyApi.TrackObjectFull) : list SpotifyApi.TrackObjectFull :=
  slice0 items (effectiveLimit artistOrLimit limit).

(** The extraction of the [k]-th candidate of [tracks] fails with [e] and
    is the first failing extraction to settle. *)
Definition FirstFailure (w : World) (tracks : list SpotifyApi.TrackObjectFull)
           (k : nat) (e : Thrown) : Prop :=
  (exists track, nth_error tracks k = Some track /\
     getSpotifyLinks w (SpotifyApi.external_urls_spotify track) = Throw e) /\
  forall j track' e',
    nth_error tracks j = Some track' ->
    getSpotifyLinks w (SpotifyApi.external_urls_spotify track') = Throw e' ->
    settlesFirst (settleTime w) k j.

(** The failure modes of a call, read off the behaviour of the world: the
    value that reaches the top-level handler in each of them. *)
Inductive CallFails (w : World) (songName : option string)
          (artistOrLimit : ArtistOrLimit) (limit : option Z) : Thrown -> Prop :=
| ValidationError :
    truthy_opt songName = false ->
    CallFails w songName artistOrLimit limit (ErrorInstance "Song name is required")
| ConfigurationError e :
    truthy_opt songName = true ->
    createSpotifyApi w = Throw e ->
    CallFails w songName artistOrLimit limit e
| CredentialError api e :
    truthy_opt songName = true ->
    createSpotifyApi w = Ok api ->
    clientCredentialsGrant w api = Throw e ->
    CallFails w songName artistOrLimit limit e
| SearchError song api token e :
    songName = Some song ->
    truthy song = true ->
    createSpotifyApi w = Ok api ->
    clientCredentialsGrant w api = Ok token ->
    searchTracks w (setAccessToken api token)
                 (resolvedQuery song artistOrLimit limit) = Throw e ->
    CallFails w songName artistOrLimit limit e
| ExtractionError song body items k e :
    CatalogAnswered w songName artistOrLimit limit song body ->
    SpotifyApi.tracks body = Some items ->
    items <> [] ->
    FirstFailure w (retained artistOrLimit limit items) k e ->
    CallFails w songName artistOrLimit limit e.

(** The same world with other settlement times. *)
Definition withSettleTime (w : World) (settle : nat -> nat) : World :=
  {| env_SPOTIFY_CLIENT_ID := env_SPOTIFY_CLIENT_ID w;
     env_SPOTIFY_CLIENT_SECRET := env_SPOTIFY_CLIENT_SECRET w;
     clientCredentialsGrant := clientCredentialsGrant w;
     searchTracks := searchTracks w;
     axios_get := axios_get w;
     cheerio_load := cheerio_load w;
     settleTime := settle |}.

(** The record that the source builds for [track] once its extraction
    gave [links]. *)
Definition BuiltFrom (w : World) (track : SpotifyApi.TrackObjectFull)
           (info : TrackInfo) : Prop :=
  getSpotifyLinks w (SpotifyApi.external_urls_spotify track) = Ok (previewUrls info) /\
  name info = (SpotifyApi.name track ++ " - " ++
               join ", " (map SpotifyApi.artist_name (SpotifyApi.artists track)))%string /\
  spotifyUrl info = SpotifyApi.external_urls_spotify track /\
  trackId info = SpotifyApi.id track /\
  albumName info = SpotifyApi.album_name (SpotifyApi.album track) /\
  releaseDate info = SpotifyApi.release_date (SpotifyApi.album track) /\
  popularity info = SpotifyApi.popularity track /\
  durationMs info = SpotifyApi.duration_ms track.

(** ** Concrete scenarios *)

Module Scenario.

Definition track (title url : string) (artistNames : list string)
  : SpotifyApi.TrackObjectFull :=
  {| SpotifyApi.name := title;
     SpotifyApi.artists := map SpotifyApi.Build_ArtistObjectSimplified artistNames;
     SpotifyApi.external_urls_spotify := url;
     SpotifyApi.id := "id:" ++ title;
     SpotifyApi.album := {| SpotifyApi.album_name := "Album";
                            SpotifyApi.release_date := "2017-01-06" |};
     SpotifyApi.popularity := 85;
     SpotifyApi.duration_ms := 233712 |}.

Definition shape : SpotifyApi.TrackObjectFull :=
  track "Shape of You" "https://open.spotify.com/track/a" ["Ed Sheeran"].

Definition duet : SpotifyApi.TrackObjectFull :=
  track "Perfect Duet" "https://open.spotify.com/track/b" ["Ed Sheeran"; "Beyonce"].

(** The page of the first track: three elements, the preview link twice. *)
Definition pageA : list Element :=
  [ {| attribs := None |};
    {| attribs := Some [("href", "https://p.scdn.co/mp3-preview/abc");
                        ("class", "player")] |};
    {| attribs := Some [("content", "https://p.scdn.co/mp3-preview/abc");
                        ("src", "https://p.scdn.co/mp3-preview/xyz")] |} ].

(** A world with credentials, a catalog that answers every query with
    [items], a fetch that answers by [fetch], and settlement times
    [settle]. *)
Definition world (items : option (list SpotifyApi.TrackObjectFull))
           (fetch : string -> Result string) (settle : nat -> nat) : World :=
  {| env_SPOTIFY_CLIENT_ID := Some "test_client_id";
     env_SPOTIFY_CLIENT_SECRET := Some "test_client_secret";
     clientCredentialsGrant := fun _ => Ok "token";
     searchTracks := fun _ _ => Ok {| SpotifyApi.tracks := items |};
     axios_get := fetch;
     cheerio_load := fun html =>
       if String.eqb html "A" then Ok pageA
       else if String.eqb html "malformed" then Throw (NonError "parse failure")
       else Ok [];
     settleTime := settle |}.

(** Every page is fetched: the first track's page is [pageA], the others
    hold no link. *)
Definition fetchAll (url : string) : Result string :=
  if String.eqb url "https://open.spotify.com/track/a" then Ok "A" else Ok "B".

(** Every fetch fails, with a message that names the page. *)
Definition fetchNone (url : string) : Result string :=
  if String.eqb url "https://open.spotify.com/track/a"
  then Throw (ErrorInstance "timeout on a")
  else Throw (ErrorInstance "status 404 on b").

(** Only the second track's page fails to load. *)
Definition fetchOnlyA (url : string) : Result string :=
  if String.eqb url "https://open.spotify.com/track/a" then Ok "A"
  else Throw (NonError "socket closed").

(** The second request settles before the first. *)
Definition secondFirst (i : nat) : nat := (2 - i)%nat.

Definition inOrder (i : nat) : nat := i.

End Scenario.

(** ** The usage examples *)

(** The examples of [src/example.ts] that print what a search returned.
    What they write to the console is the list of the entries, in order.
    The conversion of a number to text is a parameter. *)
Module Example.

(** A call of [console.log] or of [console.error], with the text written. *)
Inductive ConsoleEntry : Type :=
| console_log (text : string)
| console_error (text : string).

(** The line feed. *)
Definition newline : string := String (ascii_of_nat 10) EmptyString.

(** The text of an optional string inside a template literal, or as a
    further argument of [console.error]: an absent property reads
    [undefined]. *)
Definition textOf (value : option string) : string :=
  match value with
  | Some s => s
  | None => "undefined"
  end.

(** [Math.round(n / 1000)] on an integer [n]: the nearest integer, a half
    going up. *)
Definition Math_round_thousandth (n : Z) : Z := (n + 500) / 1000.

(** [array.forEach((item, index) => ...)], the index counting from [index]. *)
Fixpoint forEachIndexed {A : Type} (f : A -> nat -> list ConsoleEntry)
         (index : nat) (items : list A) : list ConsoleEntry :=
  match items with
  | [] => []
  | item :: rest => f item index ++ forEachIndexed f (S index) rest
  end.

Section Printing.

(** The text of a number, as a template literal prints it. *)
Variable numberToString : Z -> string.

(** The four lines that [basicSearch] prints for a track. *)
Definition basicSearch_track (track : TrackInfo) (index : nat) : list ConsoleEntry :=
  [ console_log (numberToString (Z.of_nat index + 1) ++ ". " ++ name track);
    console_log ("   Album: " ++ albumName track);
    console_log ("   Popularity: " ++ numberToString (popularity track) ++ "/100");
    console_log ("   Preview URLs: "
                 ++ numberToString (Z.of_nat (List.length (previewUrls track)))
                 ++ " found") ].

(** [basicSearch]: example 1, a search by song name with a limit of 2. *)
Definition basicSearch (w : World) : list ConsoleEntry :=
  let result := searchAndGetLinks w (Some "Shape of You") (ArgNumber 2) None in
  console_log (newline ++ "=== Example 1: Basic Search ===") ::
  (if success result
   then
     console_log ("Search Query: " ++ textOf (searchQuery result)) ::
     console_log ("Found " ++ numberToString (Z.of_nat (List.length (results result)))
                  ++ " track(s):" ++ newline) ::
     forEachIndexed basicSearch_track 0 (results result)
   else
     [console_error ("Search failed: " ++ textOf (error result))]).

(** [searchWithArtist]: example 2, a search by song and artist with a
    limit of 1, printing the first track. *)
Definition searchWithArtist (w : World) : list ConsoleEntry :=
  let result :=
    searchAndGetLinks w (Some "Bohemian Rhapsody") (ArgString "Queen") (Some 1) in
  console_log (newline ++ "=== Example 2: Search with Artist ===") ::
  match success result, results result with
  | true, track :: _ =>
      console_log ("Search Query: " ++ textOf (searchQuery result)) ::
      console_log (newline ++ "Found: " ++ name track) ::
      console_log ("Album: " ++ albumName track ++ " (" ++ releaseDate track ++ ")") ::
      console_log ("Duration: "
                   ++ numberToString (Math_round_thousandth (durationMs track)) ++ "s") ::
      console_log ("Spotify URL: " ++ spotifyUrl track) ::
      match previewUrls track with
      | [] => []
      | urls =>
          console_log (newline ++ "Preview URLs:") ::
          map (fun url => console_log ("  - " ++ url)) urls
      end
  | _, _ =>
      [console_error ("Search failed: " ++ textOf (error result))]
  end.

(** [typeSafetyExample]: example 4, a search with a limit of 1, printing
    one line per track or the error. *)
Definition typeSafetyExample (w : World) : list ConsoleEntry :=
  let result := searchAndGetLinks w (Some "Test") (ArgNumber 1) None in
  console_log (newline ++ "=== Example 4: TypeScript Type Safety ===") ::
  (if success result
   then
     map (fun track =>
            let info := name track in
            let duration := durationMs track in
            let urls := previewUrls track in
            console_log ("Track: " ++ info ++ ", Duration: " ++ numberToString duration
                         ++ "ms, URLs: "
                         ++ numberToString (Z.of_nat (List.length urls))))
         (results result)
   else
     [console_error ("Error: " ++ textOf (error result))]).

End Printing.

End Example.

(** A string without any double quote. *)
Fixpoint quoteFree (s : string) : bool :=
  match s with
  | EmptyString => true
  | String c rest => negb (Ascii.eqb c (ascii_of_nat 34)) && quoteFree rest
  end.

(** ** Strings *)

Section Strings.

Lemma append_assoc (a b c : string) : ((a ++ b) ++ c = a ++ (b ++ c))%string.
Proof.
  induction a as [|ch a IH]; simpl; [reflexivity | now rewrite IH].
Qed.

Lemma prefix_iff (needle hay : string) :
  String.prefix needle hay = true <-> exists rest, hay = (needle ++ rest)%string.
Proof.
  revert hay; induction needle as [|c needle IH]; intros hay.
  - destruct hay; simpl; split; eauto.
  - destruct hay as [|d hay]; simpl.
    + split; [discriminate | intros [rest H]; discriminate].
    + destruct (ascii_dec c d) as [->|Hcd].
      * rewrite IH. split; intros [rest H]; exists rest.
        -- now rewrite H.
        -- now injection H.
      * split; [discriminate | intros [rest H]].
        injection H as H1 H2. now elim Hcd.
Qed.

Lemma includes_unfold (hay needle : string) :
  includes hay needle =
  String.prefix needle hay ||
  match hay with
  | EmptyString => false
  | String _ rest => includes rest needle
  end.
Proof.
  destruct hay; reflexivity.
Qed.

(** [includes] is the occurrence of the needle somewhere in the string. *)
Lemma includes_iff (hay needle : string) :
  includes hay needle = true <->
  exists before after, hay = (before ++ needle ++ after)%string.
Proof.
  induction hay as [|c hay IH]; rewrite includes_unfold.
  - rewrite orb_false_r, prefix_iff. split.
    + intros [rest H]. exists EmptyString, rest. exact H.
    + intros [before [after H]]. destruct before; simpl in H; [eauto | discriminate].
  - rewrite orb_true_iff, prefix_iff, IH. split.
    + intros [[rest H] | [before [after H]]].
      * exists EmptyString, rest. exact H.
      * exists (String c before), after. simpl. now rewrite H.
    + intros [before [after H]]. destruct before as [|d before]; simpl in H.
      * left. eauto.
      * right. injection H as _ H. eauto.
Qed.

Lemma includes_middle (before needle after : string) :
  includes (before ++ needle ++ after) needle = true.
Proof.
  apply includes_iff. eauto.
Qed.

Lemma truthy_false_iff (s : string) : truthy s = false <-> s = EmptyString.
Proof.
  destruct s; simpl; split; congruence.
Qed.

End Strings.

(** ** [slice(0, end)] *)

Section Slice.

Context {A : Type}.
Implicit Types (items : list A) (L : Z).

Lemma slice0_prefix items L :
  exists dropped, items = slice0 items L ++ dropped.
Proof.
  unfold slice0. eexists. symmetry. apply firstn_skipn.
Qed.

Lemma slice0_length_le_items items L :
  (List.length (slice0 items L) <= List.length items)%nat.
Proof.
  unfold slice0. rewrite length_firstn. lia.
Qed.

Lemma slice0_length_le_limit items L :
  0 <= L -> Z.of_nat (List.length (slice0 items L)) <= L.
Proof.
  intros HL. unfold slice0. rewrite length_firstn.
  destruct (Z.ltb_spec L 0); lia.
Qed.

Lemma slice0_length items L :
  Z.of_nat (List.length (slice0 items L)) =
  if L <? 0 then Z.max (Z.of_nat (List.length items) + L) 0
  else Z.min L (Z.of_nat (List.length items)).
Proof.
  unfold slice0. rewrite length_firstn.
  destruct (Z.ltb_spec L 0); lia.
Qed.

Lemma slice0_zero items : slice0 items 0 = [].
Proof.
  unfold slice0. simpl.
  replace (Z.to_nat (Z.min 0 (Z.of_nat (List.length items)))) with 0%nat by lia.
  reflexivity.
Qed.

Lemma slice0_all items L :
  Z.of_nat (List.length items) <= L -> slice0 items L = items.
Proof.
  intros HL. unfold slice0.
  destruct (Z.ltb_spec L 0); [lia|].
  apply firstn_all2. lia.
Qed.

Lemma slice0_negative items L :
  L < 0 ->
  slice0 items L = firstn (List.length items - Z.to_nat (- L)) items.
Proof.
  intros HL. unfold slice0.
  destruct (Z.ltb_spec L 0); [|lia].
  f_equal. lia.
Qed.

Lemma slice0_nonempty items L :
  1 <= L -> items <> [] -> slice0 items L <> [].
Proof.
  intros HL Hne Hnil.
  apply (f_equal (fun l => Z.of_nat (List.length l))) in Hnil.
  rewrite slice0_length in Hnil. simpl in Hnil.
  destruct items as [|x items]; [congruence|].
  simpl List.length in Hnil.
  destruct (Z.ltb_spec L 0); lia.
Qed.

End Slice.

(** ** [Promise.all] *)

Section PromiseAll.

Context {A : Type}.
Variable settle : nat -> nat.
Implicit Types (ps : list (Result A)) (e : Thrown).

Lemma firstRejection_None ps : forall i,
  firstRejection settle i ps = None -> ps = map Ok (fulfilled ps).
Proof.
  induction ps as [|p ps IH]; intros i H; simpl in *; [reflexivity|].
  destruct p as [a|e].
  - simpl. f_equal. eauto.
  - destruct (firstRejection settle (S i) ps) as [[j e']|];
      [destruct (settle j <? settle i)%nat|]; discriminate.
Qed.

Lemma firstRejection_all_Ok (vs : list A) : forall i,
  firstRejection settle i (map Ok vs) = None /\ fulfilled (map Ok vs) = vs.
Proof.
  induction vs as [|v vs IH]; intros i; simpl; [auto|].
  destruct (IH (S i)) as [H1 H2]. rewrite H1, H2. auto.
Qed.

Lemma firstRejection_Some ps : forall i k e,
  firstRejection settle i ps = Some (k, e) ->
  exists n, k = (i + n)%nat /\ nth_error ps n = Some (Throw e) /\
    forall m e', nth_error ps m = Some (Throw e') -> settlesFirst settle k (i + m).
Proof.
  induction ps as [|p ps IH]; intros i k e H; simpl in H; [discriminate|].
  destruct (firstRejection settle (S i) ps) as [[j e']|] eqn:Hlater.
  - destruct (IH _ _ _ Hlater) as [n [Hj [Hn Hmin]]].
    assert (Hshift : forall m e0, nth_error (p :: ps) (S m) = Some (Throw e0) ->
                                  settlesFirst settle j (i + S m)).
    { intros m e0 Hm. replace (i + S m)%nat with (S i + m)%nat by lia. eauto. }
    destruct p as [a|e0].
    + injection H as -> ->. exists (S n). repeat split; [lia | exact Hn |].
      intros [|m] e0 Hm; [discriminate | eauto].
    + destruct (Nat.ltb_spec (settle j) (settle i)) as [Hlt|Hge].
      * injection H as -> ->. exists (S n). repeat split; [lia | exact Hn |].
        intros [|m] e1 Hm; [|eauto].
        left. now rewrite Nat.add_0_r.
      * injection H as <- <-. exists 0%nat. repeat split; [lia|].
        intros [|m] e1 Hm.
        -- right. rewrite Nat.add_0_r. split; lia.
        -- specialize (Hshift m e1 Hm). unfold Js.settlesFirst in *. lia.
  - destruct p as [a|e0]; [discriminate|].
    injection H as <- <-. exists 0%nat. repeat split; [lia|].
    intros [|m] e1 Hm.
    + right. rewrite Nat.add_0_r. split; lia.
    + simpl in Hm. apply firstRejection_None in Hlater.
      rewrite Hlater in Hm. rewrite nth_error_map in Hm.
      destruct (nth_error (fulfilled ps) m); discriminate.
Qed.

(** All promises fulfilled: the values come back in input order. *)
Lemma Promise_all_fulfilled (vs : list A) :
  Promise_all settle (map Ok vs) = Ok vs.
Proof.
  unfold Promise_all. destruct (firstRejection_all_Ok vs 0%nat) as [-> ->].
  reflexivity.
Qed.

Lemma Promise_all_Ok_inv ps (vs : list A) :
  Promise_all settle ps = Ok vs -> ps = map Ok vs.
Proof.
  unfold Promise_all.
  destruct (firstRejection settle 0 ps) as [[k e]|] eqn:H; [discriminate|].
  intros [= <-]. eapply firstRejection_None; eauto.
Qed.

(** A rejection of [Promise.all] is the rejection of the member that was
    first to reject. *)
Lemma Promise_all_Throw_inv ps e :
  Promise_all settle ps = Throw e ->
  exists k, nth_error ps k = Some (Throw e) /\
    forall m e', nth_error ps m = Some (Throw e') -> settlesFirst settle k m.
Proof.
  unfold Promise_all.
  destruct (firstRejection settle 0 ps) as [[k e0]|] eqn:H; [|discriminate].
  intros [= ->]. destruct (firstRejection_Some _ _ _ _ H) as [n [-> [Hn Hmin]]].
  exists n. split; [exact Hn|]. exact Hmin.
Qed.

(** One rejected member is enough for [Promise.all] to reject. *)
Lemma Promise_all_rejects ps n e :
  nth_error ps n = Some (Throw e) ->
  exists e', Promise_all settle ps = Throw e'.
Proof.
  intros Hn. destruct (Promise_all settle ps) as [vs|e'] eqn:H; [|eauto].
  apply Promise_all_Ok_inv in H. rewrite H, nth_error_map in Hn.
  destruct (nth_error vs n); discriminate.
Qed.

End PromiseAll.

(** ** The scan of attribute values *)

Section Scan.

Implicit Types (links values : list string) (v : string).

Lemma Set_has_iff links v : Set_has links v = true <-> In v links.
Proof.
  unfold Set_has. rewrite existsb_exists. split.
  - intros [x [Hin Heq]]. apply String.eqb_eq in Heq. now subst.
  - intros Hin. exists v. split; [exact Hin | apply String.eqb_refl].
Qed.

(** A value that contains the marker is not the empty string, so the
    truthiness test of the source never rejects a matching value. *)
Lemma includes_marker_truthy v :
  includes v scdnMarker = true -> truthy v = true.
Proof.
  destruct v; [discriminate | reflexivity].
Qed.

Lemma scanValues_snoc links values v :
  scanValues links (values ++ [v]) =
  if includes v scdnMarker && negb (Set_has (scanValues links values) v)
  then scanValues links values ++ [v]
  else scanValues links values.
Proof.
  unfold scanValues at 1. rewrite fold_left_app. simpl.
  fold (scanValues links values). unfold Set_add.
  destruct (includes v scdnMarker) eqn:Hinc.
  - rewrite (includes_marker_truthy _ Hinc). simpl.
    now destruct (Set_has (scanValues links values) v).
  - now rewrite andb_false_r.
Qed.

(** The nested loops visit the attribute values of the document in order. *)
Lemma scanElements_flat elements : forall links,
  scanElements links elements = scanValues links (attributeValues elements).
Proof.
  induction elements as [|el elements IH]; intros links; [reflexivity|].
  unfold scanElements, attributeValues in *. simpl.
  rewrite IH. unfold scanValues. rewrite fold_left_app.
  destruct (attribs el); reflexivity.
Qed.

(** Membership: exactly the scanned values that contain the marker. *)
Lemma scanValues_In values : forall v,
  In v (scanValues [] values) <-> In v values /\ includes v scdnMarker = true.
Proof.
  induction values as [|x values IH] using rev_ind; intros v.
  - simpl. tauto.
  - rewrite scanValues_snoc, in_app_iff. simpl.
    destruct (includes x scdnMarker) eqn:Hinc; simpl.
    + destruct (Set_has (scanValues [] values) x) eqn:Hhas; simpl.
      * rewrite IH. apply Set_has_iff, IH in Hhas.
        split; [tauto|]. intros [[H|[H|[]]] Hv]; [tauto|]. subst. tauto.
      * rewrite in_app_iff, IH. simpl.
        split; [|tauto]. intros [H|[H|[]]]; [tauto|]. subst. tauto.
    + rewrite IH. split; [tauto|].
      intros [[H|[H|[]]] Hv]; [tauto|]. subst. congruence.
Qed.

(** No duplicates: equal strings collapse. *)
Lemma scanValues_NoDup values : NoDup (scanValues [] values).
Proof.
  induction values as [|x values IH] using rev_ind; [constructor|].
  rewrite scanValues_snoc.
  destruct (includes x scdnMarker); simpl; [|exact IH].
  destruct (Set_has (scanValues [] values) x) eqn:Hhas; simpl; [exact IH|].
  apply NoDup_app; [exact IH | repeat constructor; simpl; tauto |].
  intros y Hy [<-|[]]. apply Set_has_iff in Hy. congruence.
Qed.

(** Order: the links that precede a link [v] in the result are exactly
    the matching values met before the first occurrence of [v]. *)
Lemma scanValues_first_occurrence values : forall before v after,
  scanValues [] values = before ++ v :: after ->
  exists seen rest,
    values = seen ++ v :: rest /\ ~ In v seen /\
    forall u, In u before <-> In u seen /\ includes u scdnMarker = true.
Proof.
  induction values as [|x values IH] using rev_ind; intros before v after Hres.
  - destruct before; discriminate.
  - rewrite scanValues_snoc in Hres.
    assert (Hold : forall before v after,
               scanValues [] values = before ++ v :: after ->
               exists seen rest,
                 values ++ [x] = seen ++ v :: rest /\ ~ In v seen /\
                 forall u, In u before <-> In u seen /\ includes u scdnMarker = true).
    { intros b u a H. destruct (IH _ _ _ H) as [seen [rest [Hv [Hnot Hbefore]]]].
      exists seen, (rest ++ [x]). rewrite Hv, <- app_assoc. auto. }
    destruct (includes x scdnMarker && negb (Set_has (scanValues [] values) x))
      eqn:Hadd; [|eauto].
    apply andb_true_iff in Hadd. destruct Hadd as [Hinc Hnew].
    apply negb_true_iff in Hnew.
    destruct after as [|a after] using rev_ind.
    + apply app_inj_tail in Hres. destruct Hres as [Hb <-].
      exists values, []. split; [reflexivity|]. split.
      * intros Hin. assert (In x (scanValues [] values)) as Hx
          by (apply scanValues_In; auto).
        apply Set_has_iff in Hx. congruence.
      * intros u. rewrite <- Hb. apply scanValues_In.
    + clear IHafter.
      change (before ++ v :: after ++ [a]) with (before ++ (v :: after) ++ [a]) in Hres.
      rewrite app_assoc in Hres. apply app_inj_tail in Hres.
      destruct Hres as [Hb _]. eauto.
Qed.

End Scan.

(** ** Preview extraction *)

Section Extraction.

Variable w : World.
Implicit Types (url : string) (track : SpotifyApi.TrackObjectFull).

Lemma getSpotifyLinks_Ok_iff url links :
  getSpotifyLinks w url = Ok links <->
  exists html elements,
    axios_get w url = Ok html /\ cheerio_load w html = Ok elements /\
    links = scanValues [] (attributeValues elements).
Proof.
  unfold getSpotifyLinks, getSpotifyLinks_try, Js.bind. split.
  - destruct (axios_get w url) as [html|e] eqn:Hget; [|discriminate].
    destruct (cheerio_load w html) as [elements|e] eqn:Hload; [|discriminate].
    intros [= <-]. exists html, elements. now rewrite scanElements_flat.
  - intros [html [elements [-> [-> ->]]]]. now rewrite scanElements_flat.
Qed.

(** A failed extraction always throws an [Error] whose message is the
    prefix followed by the message of the underlying failure. *)
Lemma getSpotifyLinks_Throw_inv url e :
  getSpotifyLinks w url = Throw e ->
  exists cause,
    e = ErrorInstance ("Failed to fetch preview URLs: " ++ errorMessage cause) /\
    (axios_get w url = Throw cause \/
     exists html, axios_get w url = Ok html /\ cheerio_load w html = Throw cause).
Proof.
  unfold getSpotifyLinks, getSpotifyLinks_try, Js.bind.
  destruct (axios_get w url) as [html|cause] eqn:Hget.
  - destruct (cheerio_load w html) as [elements|cause] eqn:Hload; [discriminate|].
    intros [= <-]. exists cause. split; [reflexivity|]. right. eauto.
  - intros [= <-]. exists cause. auto.
Qed.

Lemma trackToInfo_Throw_iff track e :
  trackToInfo w track = Throw e <->
  getSpotifyLinks w (SpotifyApi.external_urls_spotify track) = Throw e.
Proof.
  unfold trackToInfo, Js.bind.
  destruct (getSpotifyLinks w _); split; congruence.
Qed.

Lemma trackToInfo_Ok_inv track info :
  trackToInfo w track = Ok info -> BuiltFrom w track info.
Proof.
  unfold trackToInfo, BuiltFrom, Js.bind.
  destruct (getSpotifyLinks w _) as [links|e]; [|discriminate].
  intros [= <-]. simpl. repeat split; reflexivity.
Qed.

(** The fan-out rejects exactly with the first failing extraction. *)
Lemma fanOut_Throw_iff tracks e :
  Promise_all (settleTime w) (map (trackToInfo w) tracks) = Throw e <->
  exists k, FirstFailure w tracks k e.
Proof.
  split.
  - intros H. apply Promise_all_Throw_inv in H. destruct H as [k [Hk Hmin]].
    exists k. rewrite nth_error_map in Hk. split.
    + destruct (nth_error tracks k) as [track|]; [|discriminate].
      injection Hk as Hk. exists track. split; [reflexivity|].
      now apply trackToInfo_Throw_iff.
    + intros j track' e' Hj He'. apply (Hmin j e').
      rewrite nth_error_map, Hj. simpl. f_equal. now apply trackToInfo_Throw_iff.
  - intros [k [[track [Hk He]] Hmin]].
    assert (Hk' : nth_error (map (trackToInfo w) tracks) k = Some (Throw e)).
    { rewrite nth_error_map, Hk. simpl. f_equal. now apply trackToInfo_Throw_iff. }
    destruct (Promise_all_rejects (settleTime w) _ _ _ Hk') as [e' H].
    rewrite H. f_equal.
    apply Promise_all_Throw_inv in H. destruct H as [k' [Hk'' Hmin']].
    specialize (Hmin' _ _ Hk').
    rewrite nth_error_map in Hk''.
    destruct (nth_error tracks k') as [track'|] eqn:Htrack'; [|discriminate].
    injection Hk'' as Hk''. apply trackToInfo_Throw_iff in Hk''.
    specialize (Hmin _ _ _ Htrack' Hk'').
    assert (k' = k) as -> by (unfold settlesFirst in *; lia).
    rewrite Hk in Htrack'. injection Htrack' as <-. congruence.
Qed.

(** The fan-out is fulfilled exactly when every extraction is, with one
    record per track, in the order of the tracks. *)
Lemma fanOut_Ok_iff tracks infos :
  Promise_all (settleTime w) (map (trackToInfo w) tracks) = Ok infos <->
  Forall2 (fun track info => trackToInfo w track = Ok info) tracks infos.
Proof.
  split.
  - intros H. apply Promise_all_Ok_inv in H. revert infos H.
    induction tracks as [|t tracks IH]; intros [|i infos] H; try discriminate.
    + constructor.
    + injection H as H1 H2. constructor; auto.
  - intros H.
    assert (map (trackToInfo w) tracks = map Ok infos) as ->.
    { induction H; simpl; [reflexivity | congruence]. }
    apply Promise_all_fulfilled.
Qed.

End Extraction.

(** ** The pipeline of [searchAndGetLinks] *)

Section Pipeline.

Variable w : World.
Variable songName : option string.
Variable artistOrLimit : ArtistOrLimit.
Variable limit : option Z.

Lemma try_unfold :
  searchAndGetLinks_try w songName artistOrLimit limit =
  (song <- (match songName with
            | Some s => if negb (truthy s)
                        then Throw (ErrorInstance "Song name is required")
                        else Ok s
            | None => Throw (ErrorInstance "Song name is required")
            end) ;;
   spotifyApi <- createSpotifyApi w ;;
   access_token <- clientCredentialsGrant w spotifyApi ;;
   searchResults <- searchTracks w (setAccessToken spotifyApi access_token) (resolvedQuery song artistOrLimit limit) ;;
   processSearchResults w (resolvedQuery song artistOrLimit limit) (effectiveLimit artistOrLimit limit) searchResults).
Proof.
  unfold searchAndGetLinks_try, resolvedQuery, effectiveLimit.
  destruct (parseParameters artistOrLimit limit) as [artist n]. reflexivity.
Qed.

Lemma try_validation :
  truthy_opt songName = false ->
  searchAndGetLinks_try w songName artistOrLimit limit =
  Throw (ErrorInstance "Song name is required").
Proof.
  intros H. rewrite try_unfold.
  destruct songName as [s|]; simpl in *; [rewrite H|]; reflexivity.
Qed.

Lemma try_after_search song body :
  CatalogAnswered w songName artistOrLimit limit song body ->
  searchAndGetLinks_try w songName artistOrLimit limit =
  processSearchResults w (resolvedQuery song artistOrLimit limit) (effectiveLimit artistOrLimit limit) body.
Proof.
  intros [Hsong [Htruthy [api [token [Hapi [Hgrant Hsearch]]]]]].
  rewrite try_unfold, Hsong. simpl. rewrite Htruthy. simpl.
  rewrite Hapi. simpl. rewrite Hgrant. simpl.
  now rewrite Hsearch.
Qed.

Lemma try_Ok_inv r :
  searchAndGetLinks_try w songName artistOrLimit limit = Ok r ->
  exists song body,
    CatalogAnswered w songName artistOrLimit limit song body /\
    processSearchResults w (resolvedQuery song artistOrLimit limit) (effectiveLimit artistOrLimit limit) body = Ok r.
Proof.
  rewrite try_unfold. unfold Js.bind.
  destruct songName as [s|]; [|discriminate].
  destruct (truthy s) eqn:Htruthy; simpl; [|discriminate].
  destruct (createSpotifyApi w) as [api|e] eqn:Hapi; [|discriminate].
  destruct (clientCredentialsGrant w api) as [token|e] eqn:Hgrant; [|discriminate].
  destruct (searchTracks w (setAccessToken api token) (resolvedQuery s artistOrLimit limit))
    as [body|e] eqn:Hsearch; [|discriminate].
  intros H. exists s, body. split; [|exact H].
  repeat split; auto. exists api, token. auto.
Qed.

Lemma processSearchResults_empty searchQuery n body :
  SpotifyApi.tracks body = None \/ SpotifyApi.tracks body = Some [] ->
  processSearchResults w searchQuery n body = Ok (failureResult "No songs found").
Proof.
  unfold processSearchResults. now intros [-> | ->].
Qed.

Lemma processSearchResults_items searchQuery n body items :
  SpotifyApi.tracks body = Some items -> items <> [] ->
  processSearchResults w searchQuery n body =
  (results <- Promise_all (settleTime w) (map (trackToInfo w) (slice0 items n)) ;;
   Ok {| success := true; searchQuery := Some searchQuery;
         results := results; error := None |}).
Proof.
  unfold processSearchResults. intros -> Hne.
  destruct items; [congruence | reflexivity].
Qed.

(** A normal return of the search stage is either the zero-match result or
    a successful result built from the fulfilled fan-out. *)
Lemma processSearchResults_Ok_inv searchQuery n body r :
  processSearchResults w searchQuery n body = Ok r ->
  ((SpotifyApi.tracks body = None \/ SpotifyApi.tracks body = Some []) /\
   r = failureResult "No songs found") \/
  (exists items infos,
     SpotifyApi.tracks body = Some items /\ items <> [] /\
     Forall2 (fun track info => trackToInfo w track = Ok info) (slice0 items n) infos /\
     r = {| success := true; searchQuery := Some searchQuery;
            results := infos; error := None |}).
Proof.
  destruct (SpotifyApi.tracks body) as [[|t items]|] eqn:Htracks.
  - rewrite processSearchResults_empty by auto. intros [= <-]. auto.
  - rewrite (processSearchResults_items _ _ _ _ Htracks) by discriminate.
    unfold Js.bind.
    destruct (Promise_all _ _) as [infos|e] eqn:Hall; [|discriminate].
    intros [= <-]. right. exists (t :: items), infos.
    repeat split; [discriminate|]. now apply fanOut_Ok_iff.
  - rewrite processSearchResults_empty by auto. intros [= <-]. auto.
Qed.

Lemma processSearchResults_Throw_iff searchQuery n body e :
  processSearchResults w searchQuery n body = Throw e <->
  exists items k,
    SpotifyApi.tracks body = Some items /\ items <> [] /\
    FirstFailure w (slice0 items n) k e.
Proof.
  destruct (SpotifyApi.tracks body) as [[|t items]|] eqn:Htracks.
  - rewrite processSearchResults_empty by auto.
    split; [discriminate|]. intros [items [k [[= <-] [Hne _]]]]. congruence.
  - rewrite (processSearchResults_items _ _ _ _ Htracks) by discriminate.
    unfold Js.bind. split.
    + destruct (Promise_all _ _) as [infos|e'] eqn:Hall; [discriminate|].
      intros [= ->]. apply fanOut_Throw_iff in Hall. destruct Hall as [k Hk].
      exists (t :: items), k. repeat split; [discriminate | apply Hk | apply Hk].
    + intros [items' [k [[= <-] [_ Hk]]]].
      assert (Promise_all (settleTime w) (map (trackToInfo w) (slice0 (t :: items) n))
              = Throw e) as -> by (apply fanOut_Throw_iff; eauto).
      reflexivity.
  - rewrite processSearchResults_empty by auto.
    split; [discriminate|]. intros [items [k [[=] _]]].
Qed.

(** The [try] block throws exactly in the listed failure modes. *)
Lemma try_Throw_iff e :
  searchAndGetLinks_try w songName artistOrLimit limit = Throw e <->
  CallFails w songName artistOrLimit limit e.
Proof.
  split.
  - rewrite try_unfold. unfold Js.bind.
    destruct songName as [s|] eqn:Hname;
      [|intros [= <-]; now constructor].
    destruct (truthy s) eqn:Htruthy; simpl;
      [|intros [= <-]; now constructor].
    destruct (createSpotifyApi w) as [api|e0] eqn:Hapi;
      [|intros [= <-]; now apply ConfigurationError].
    destruct (clientCredentialsGrant w api) as [token|e0] eqn:Hgrant;
      [|intros [= <-]; now apply CredentialError with api].
    destruct (searchTracks w (setAccessToken api token) (resolvedQuery s artistOrLimit limit))
      as [body|e0] eqn:Hsearch;
      [|intros [= <-]; now apply SearchError with s api token].
    intros H. apply processSearchResults_Throw_iff in H.
    destruct H as [items [k [Htracks [Hne Hk]]]].
    apply ExtractionError with s body items k; auto.
    repeat split; auto. exists api, token. auto.
  - intros H. destruct H as [H | e H1 H2 | api e H1 H2 H3
                             | song api token e H1 H2 H3 H4 H5
                             | song body items k e H1 H2 H3 H4].
    + now apply try_validation.
    + rewrite try_unfold. destruct songName as [s|]; simpl in *; [|discriminate].
      rewrite H1. simpl. now rewrite H2.
    + rewrite try_unfold. destruct songName as [s|]; simpl in *; [|discriminate].
      rewrite H1. simpl. rewrite H2. simpl. now rewrite H3.
    + rewrite try_unfold, H1. simpl. rewrite H2. simpl. rewrite H3. simpl.
      rewrite H4. simpl. now rewrite H5.
    + rewrite (try_after_search _ _ H1). apply processSearchResults_Throw_iff.
      exists items, k. auto.
Qed.

End Pipeline.

(** ** Outcomes of a call *)

Section Outcomes.

Variable w : World.
Variable songName : option string.
Variable artistOrLimit : ArtistOrLimit.
Variable limit : option Z.

(** Every call ends in one of three ways: a successful result built from
    the retained candidates, the zero-match result, or the result that the
    top-level handler builds from a thrown value. *)
Lemma searchAndGetLinks_cases :
  (exists song body items infos,
     CatalogAnswered w songName artistOrLimit limit song body /\
     SpotifyApi.tracks body = Some items /\ items <> [] /\
     Forall2 (fun track info => trackToInfo w track = Ok info)
             (retained artistOrLimit limit items) infos /\
     searchAndGetLinks_try w songName artistOrLimit limit =
       Ok (searchAndGetLinks w songName artistOrLimit limit) /\
     searchAndGetLinks w songName artistOrLimit limit =
       {| success := true;
          searchQuery := Some (resolvedQuery song artistOrLimit limit);
          results := infos; error := None |}) \/
  (exists song body,
     CatalogAnswered w songName artistOrLimit limit song body /\
     (SpotifyApi.tracks body = None \/ SpotifyApi.tracks body = Some []) /\
     searchAndGetLinks_try w songName artistOrLimit limit =
       Ok (searchAndGetLinks w songName artistOrLimit limit) /\
     searchAndGetLinks w songName artistOrLimit limit =
       failureResult "No songs found") \/
  (exists e,
     CallFails w songName artistOrLimit limit e /\
     searchAndGetLinks_try w songName artistOrLimit limit = Throw e /\
     searchAndGetLinks w songName artistOrLimit limit =
       failureResult (errorMessage e)).
Proof.
  unfold searchAndGetLinks.
  destruct (searchAndGetLinks_try w songName artistOrLimit limit) as [r|e] eqn:Htry.
  - destruct (try_Ok_inv _ _ _ _ _ Htry) as [song [body [Hanswered Hprocess]]].
    apply processSearchResults_Ok_inv in Hprocess.
    destruct Hprocess as [[Hzero ->] | [items [infos [Htracks [Hne [Hall ->]]]]]].
    + right. left. exists song, body. auto.
    + left. exists song, body, items, infos. auto 10.
  - right. right. exists e. split; [now apply try_Throw_iff | auto].
Qed.

Lemma searchAndGetLinks_success_inv :
  success (searchAndGetLinks w songName artistOrLimit limit) = true ->
  exists song body items infos,
    CatalogAnswered w songName artistOrLimit limit song body /\
    SpotifyApi.tracks body = Some items /\ items <> [] /\
    Forall2 (fun track info => trackToInfo w track = Ok info)
            (retained artistOrLimit limit items) infos /\
    searchAndGetLinks w songName artistOrLimit limit =
      {| success := true;
         searchQuery := Some (resolvedQuery song artistOrLimit limit);
         results := infos; error := None |}.
Proof.
  intros Hsuccess.
  destruct searchAndGetLinks_cases
    as [[song [body [items [infos [H1 [H2 [H3 [H4 [_ H5]]]]]]]]]
       | [[song [body [_ [_ [_ H]]]]] | [e [_ [_ H]]]]];
    try (rewrite H in Hsuccess; discriminate).
  exists song, body, items, infos. auto.
Qed.

(** Once the catalog has answered with items, the call either succeeds
    with one record per retained candidate, or fails with the first
    failing extraction. *)
Lemma searchAndGetLinks_answered song body items :
  CatalogAnswered w songName artistOrLimit limit song body ->
  SpotifyApi.tracks body = Some items -> items <> [] ->
  (exists infos,
     Forall2 (fun track info => trackToInfo w track = Ok info)
             (retained artistOrLimit limit items) infos /\
     searchAndGetLinks w songName artistOrLimit limit =
       {| success := true;
          searchQuery := Some (resolvedQuery song artistOrLimit limit);
          results := infos; error := None |}) \/
  (exists k e,
     FirstFailure w (retained artistOrLimit limit items) k e /\
     searchAndGetLinks w songName artistOrLimit limit =
       failureResult (errorMessage e)).
Proof.
  intros Hanswered Htracks Hne. unfold searchAndGetLinks.
  rewrite (try_after_search _ _ _ _ _ _ Hanswered).
  destruct (processSearchResults w _ _ body) as [r|e] eqn:Hprocess.
  - apply processSearchResults_Ok_inv in Hprocess.
    destruct Hprocess as [[[Hz|Hz] _] | [items' [infos [Htracks' [_ [Hall ->]]]]]];
      try congruence.
    left. exists infos. split; [|reflexivity].
    rewrite Htracks in Htracks'. now injection Htracks' as <-.
  - apply processSearchResults_Throw_iff in Hprocess.
    destruct Hprocess as [items' [k [Htracks' [_ Hk]]]].
    right. exists k, e. split; [|reflexivity].
    rewrite Htracks in Htracks'. now injection Htracks' as <-.
Qed.

End Outcomes.

(** ** Properties of the specification *)

(** C1. Whatever the arguments and whatever the catalog client, the HTTP
    client and the parser do (return, throw an [Error], or throw a value
    that is no [Error]), [searchAndGetLinks] returns a [SearchResult]: the
    function of the model is total and its value is never a thrown one.
    In every failure mode (validation, configuration, credential, search,
    extraction) the result is [success = false], [results = []] and
    [error] is the message of the thrown value, which is the [message] of
    an [Error] and the text [Unknown error] for any other value; the only
    results with [success = false] are these and the zero-match result. *)
Theorem C1_failures_normalized
        (w : World) (songName : option string)
        (artistOrLimit : ArtistOrLimit) (limit : option Z) :
  let r := searchAndGetLinks w songName artistOrLimit limit in
  (forall e, CallFails w songName artistOrLimit limit e ->
     success r = false /\ results r = [] /\ error r = Some (errorMessage e)) /\
  (forall message, errorMessage (ErrorInstance message) = message) /\
  (forall description, errorMessage (NonError description) = "Unknown error") /\
  (success r = false ->
     results r = [] /\
     (error r = Some "No songs found" \/
      exists e, CallFails w songName artistOrLimit limit e /\
                error r = Some (errorMessage e))) /\
  (success r = true -> error r = None).
Proof.
  intros r. subst r.
  pose proof (searchAndGetLinks_cases w songName artistOrLimit limit) as Hcases.
  split; [|split; [reflexivity|split; [reflexivity|split]]].
  - intros e He. apply try_Throw_iff in He.
    unfold searchAndGetLinks. rewrite He. auto.
  - intros Hfalse.
    destruct Hcases
      as [[song [body [items [infos [_ [_ [_ [_ [_ Hr]]]]]]]]]
         | [[song [body [_ [_ [_ Hr]]]]] | [e [He [_ Hr]]]]];
      rewrite Hr in *; simpl in *; try discriminate.
    + auto.
    + split; [reflexivity|]. right. exists e. auto.
  - intros Htrue.
    destruct Hcases
      as [[song [body [items [infos [_ [_ [_ [_ [_ Hr]]]]]]]]]
         | [[song [body [_ [_ [_ Hr]]]]] | [e [_ [_ Hr]]]]];
      rewrite Hr in *; simpl in *; congruence.
Qed.

(** C8. When the catalog answers with zero matches (the [tracks] field
    absent, or its item sequence empty), the [try] block returns normally
    (it does not throw) the result [success = false], [error = No songs
    found], [results = []], and that is the result of the call. *)
Theorem C8_no_songs_found
        (w : World) (songName : option string)
        (artistOrLimit : ArtistOrLimit) (limit : option Z)
        (song : string) (body : SpotifyApi.SearchResponse)
        (Hanswered : CatalogAnswered w songName artistOrLimit limit song body)
        (Hzero : SpotifyApi.tracks body = None \/ SpotifyApi.tracks body = Some []) :
  searchAndGetLinks_try w songName artistOrLimit limit =
    Ok {| success := false; searchQuery := None; results := [];
          error := Some "No songs found" |} /\
  searchAndGetLinks w songName artistOrLimit limit =
    {| success := false; searchQuery := None; results := [];
       error := Some "No songs found" |}.
Proof.
  assert (Htry : searchAndGetLinks_try w songName artistOrLimit limit =
                 Ok (failureResult "No songs found")).
  { rewrite (try_after_search _ _ _ _ _ _ Hanswered).
    now apply processSearchResults_empty. }
  split; [exact Htry|]. unfold searchAndGetLinks. now rewrite Htry.
Qed.

(** C8 at a catalog that answers with an empty item list. *)
Lemma C8_no_songs_found_witness :
  searchAndGetLinks_try
    (Scenario.world (Some []) Scenario.fetchAll Scenario.inOrder)
    (Some "Shape of You") ArgUndefined None =
    Ok {| success := false; searchQuery := None; results := [];
          error := Some "No songs found" |} /\
  searchAndGetLinks
    (Scenario.world (Some []) Scenario.fetchAll Scenario.inOrder)
    (Some "Shape of You") ArgUndefined None =
    {| success := false; searchQuery := None; results := [];
       error := Some "No songs found" |}.
Proof.
  apply (C8_no_songs_found
           (Scenario.world (Some []) Scenario.fetchAll Scenario.inOrder)
           (Some "Shape of You") ArgUndefined None
           "Shape of You" {| SpotifyApi.tracks := Some [] |}).
  - split; [reflexivity|]. split; [reflexivity|].
    exists {| clientId := "test_client_id"; clientSecret := "test_client_secret";
              accessToken := None |}, "token".
    repeat split; reflexivity.
  - right. reflexivity.
Defined.

(** C9. A call whose song name is unsupplied or empty returns exactly
    [success = false], [error = Song name is required], [results = []],
    whatever the other arguments and whatever the world. *)
Theorem C9_song_name_required
        (w : World) (artistOrLimit : ArtistOrLimit) (limit : option Z) :
  searchAndGetLinks w None artistOrLimit limit =
    {| success := false; searchQuery := None; results := [];
       error := Some "Song name is required" |} /\
  searchAndGetLinks w (Some EmptyString) artistOrLimit limit =
    {| success := false; searchQuery := None; results := [];
       error := Some "Song name is required" |}.
Proof.
  split; reflexivity.
Qed.

(** C10. With the empty string as second argument the string branch is
    taken: the artist is the empty string and the effective limit is the
    third argument, or 5 when there is none. The query is nevertheless
    the song name alone, because its construction tests the truthiness of
    the artist. The call as a whole behaves as the numeric form with that
    limit. *)
Theorem C10_empty_artist
        (w : World) (song : string) (limit : option Z) :
  parseParameters (ArgString EmptyString) limit =
    (Some EmptyString, limitOrDefault limit) /\
  (forall n, effectiveLimit (ArgString EmptyString) (Some n) = n) /\
  effectiveLimit (ArgString EmptyString) None = 5 /\
  resolvedQuery song (ArgString EmptyString) limit = song /\
  searchAndGetLinks w (Some song) (ArgString EmptyString) limit =
  searchAndGetLinks w (Some song) (ArgNumber (limitOrDefault limit)) None.
Proof.
  split; [reflexivity|]. split; [reflexivity|]. split; [reflexivity|].
  split; [reflexivity|].
  unfold searchAndGetLinks. rewrite !try_unfold. reflexivity.
Qed.

(** C3, as stated, fails at an empty artist: the second argument is a
    string, yet the query is the song name alone and holds no [track:]
    qualifier, and that is the query a successful result reports. *)
Lemma C3_counterexample_empty_artist :
  resolvedQuery "Hello" (ArgString EmptyString) None = "Hello" /\
  includes (resolvedQuery "Hello" (ArgString EmptyString) None)
           ("track:" ++ dquote)%string = false /\
  searchQuery
    (searchAndGetLinks
       (Scenario.world (Some [Scenario.shape]) Scenario.fetchAll Scenario.inOrder)
       (Some "Hello") (ArgString EmptyString) None) = Some "Hello".
Proof.
  split; [reflexivity|]. split; reflexivity.
Qed.

(** C3, amended. When the second argument is a non-empty string, the
    query is the song name and the artist, verbatim, each between double
    quotes after [track:] and [artist:], so it contains both qualifiers.
    When the second argument is a number, absent, or the empty string, the
    query is the song name unmodified. The query of a successful result is
    the resolved one. *)
Theorem C3_query_construction
        (song artist : string) (limit : option Z)
        (Hartist : artist <> EmptyString) :
  (resolvedQuery song (ArgString artist) limit =
     ("track:" ++ dquote ++ song ++ dquote ++ " artist:" ++ dquote
      ++ artist ++ dquote)%string /\
   includes (resolvedQuery song (ArgString artist) limit)
            ("track:" ++ dquote)%string = true /\
   includes (resolvedQuery song (ArgString artist) limit)
            ("artist:" ++ dquote)%string = true) /\
  (forall n limit', resolvedQuery song (ArgNumber n) limit' = song) /\
  (forall limit', resolvedQuery song ArgUndefined limit' = song) /\
  (forall limit', resolvedQuery song (ArgString EmptyString) limit' = song) /\
  (forall w artistOrLimit limit',
     success (searchAndGetLinks w (Some song) artistOrLimit limit') = true ->
     searchQuery (searchAndGetLinks w (Some song) artistOrLimit limit') =
       Some (resolvedQuery song artistOrLimit limit')).
Proof.
  assert (Hq : resolvedQuery song (ArgString artist) limit =
               ("track:" ++ dquote ++ song ++ dquote ++ " artist:" ++ dquote
                ++ artist ++ dquote)%string).
  { unfold resolvedQuery, buildSearchQuery. simpl.
    destruct artist; [congruence | reflexivity]. }
  split; [split; [exact Hq | rewrite Hq; split]|].
  - apply includes_iff. exists EmptyString. eexists. reflexivity.
  - apply includes_iff.
    exists ("track:" ++ dquote ++ song ++ dquote ++ " ")%string,
           (artist ++ dquote)%string.
    simpl. do 7 f_equal. rewrite !append_assoc. reflexivity.
  - split; [reflexivity|]. split; [reflexivity|]. split; [reflexivity|].
    intros w artistOrLimit limit' Hsuccess.
    destruct (searchAndGetLinks_success_inv _ _ _ _ Hsuccess)
      as [song' [body [items [infos [[Hsong _] [_ [_ [_ Hr]]]]]]]].
    rewrite Hr. simpl. now injection Hsong as <-.
Qed.

(** C3 (amended) at the song and artist of the usage example. *)
Lemma C3_query_construction_witness :
  (resolvedQuery "Shape of You" (ArgString "Ed Sheeran") (Some 2) =
     ("track:" ++ dquote ++ "Shape of You" ++ dquote ++ " artist:" ++ dquote
      ++ "Ed Sheeran" ++ dquote)%string /\
   includes (resolvedQuery "Shape of You" (ArgString "Ed Sheeran") (Some 2))
            ("track:" ++ dquote)%string = true /\
   includes (resolvedQuery "Shape of You" (ArgString "Ed Sheeran") (Some 2))
            ("artist:" ++ dquote)%string = true).
Proof.
  refine (proj1 (C3_query_construction "Shape of You" "Ed Sheeran" (Some 2) _)).
  discriminate.
Defined.

(** C2, as stated, fails at a negative limit: with limit -1 and two
    catalog items the slice drops the last item and keeps the first, so
    the retained sequence is not empty although the limit is below zero,
    and the single result exceeds the limit. *)
Lemma C2_counterexample_negative_limit :
  effectiveLimit (ArgNumber (-1)) None = -1 /\
  (-1 <=? 0) = true /\
  retained (ArgNumber (-1)) None [Scenario.shape; Scenario.duet] = [Scenario.shape] /\
  List.length
    (results
       (searchAndGetLinks
          (Scenario.world (Some [Scenario.shape; Scenario.duet])
                          Scenario.fetchAll Scenario.inOrder)
          (Some "Shape") (ArgNumber (-1)) None)) = 1%nat /\
  (Z.of_nat 1 <=? -1) = false.
Proof.
  split; [reflexivity|]. split; [reflexivity|]. split; [reflexivity|].
  split; reflexivity.
Qed.

(** C2, amended. For every integer effective limit [L] and every catalog
    answer with a non-empty item list: the retained sequence is empty
    when [L = 0]; it is the items without their last [-L] ones when
    [L < 0]; it is all the items when [L] is at least their number. The
    length of [results] never exceeds the number of catalog items, nor
    the number of retained candidates (which it equals on success), and
    never exceeds [L] when [L] is not negative. *)
Theorem C2_limit_bounds
        (w : World) (songName : option string)
        (artistOrLimit : ArtistOrLimit) (limit : option Z)
        (song : string) (body : SpotifyApi.SearchResponse)
        (items : list SpotifyApi.TrackObjectFull)
        (Hanswered : CatalogAnswered w songName artistOrLimit limit song body)
        (Htracks : SpotifyApi.tracks body = Some items)
        (Hne : items <> []) :
  let L := effectiveLimit artistOrLimit limit in
  let kept := retained artistOrLimit limit items in
  let r := searchAndGetLinks w songName artistOrLimit limit in
  (L = 0 -> kept = []) /\
  (L < 0 -> kept = firstn (List.length items - Z.to_nat (- L)) items) /\
  (Z.of_nat (List.length items) <= L -> kept = items) /\
  (exists dropped, items = kept ++ dropped) /\
  (List.length (results r) <= List.length kept)%nat /\
  (success r = true -> List.length (results r) = List.length kept) /\
  (List.length (results r) <= List.length items)%nat /\
  (0 <= L -> Z.of_nat (List.length (results r)) <= L).
Proof.
  intros L kept r.
  assert (Hlen : (List.length (results r) <= List.length kept)%nat /\
                 (success r = true -> List.length (results r) = List.length kept)).
  { subst r kept.
    destruct (searchAndGetLinks_answered _ _ _ _ _ _ _ Hanswered Htracks Hne)
      as [[infos [Hall ->]] | [k [e [_ ->]]]]; simpl.
    - apply Forall2_length in Hall. rewrite Hall. auto.
    - split; [lia | discriminate]. }
  destruct Hlen as [Hle Heq].
  assert (Hkept : kept = slice0 items L) by reflexivity.
  clearbody kept L r. subst kept.
  pose proof (slice0_length_le_items items L) as Hitems.
  split; [intros ->; apply slice0_zero|].
  split; [apply slice0_negative|].
  split; [apply slice0_all|].
  split; [apply slice0_prefix|].
  split; [exact Hle|]. split; [exact Heq|]. split; [lia|].
  intros HL. pose proof (slice0_length_le_limit items L HL) as Hlimit. lia.
Qed.

(** C2 (amended) at a limit of 1 over two catalog items. *)
Lemma C2_limit_bounds_witness :
  (List.length
     (results
        (searchAndGetLinks
           (Scenario.world (Some [Scenario.shape; Scenario.duet])
                           Scenario.fetchAll Scenario.inOrder)
           (Some "Shape") (ArgNumber 1) None)) <= 2)%nat.
Proof.
  refine (proj1 (proj2 (proj2 (proj2 (proj2 (proj2 (proj2
    (C2_limit_bounds
       (Scenario.world (Some [Scenario.shape; Scenario.duet])
                       Scenario.fetchAll Scenario.inOrder)
       (Some "Shape") (ArgNumber 1) None "Shape"
       {| SpotifyApi.tracks := Some [Scenario.shape; Scenario.duet] |}
       [Scenario.shape; Scenario.duet] _ _ _)))))))).
  - split; [reflexivity|]. split; [reflexivity|].
    exists {| clientId := "test_client_id"; clientSecret := "test_client_secret";
              accessToken := None |}, "token".
    split; [reflexivity|]. split; reflexivity.
  - reflexivity.
  - discriminate.
Defined.

(** C4, as stated, fails at a limit of 0: the call succeeds, no error is
    set, and [results] is empty, so neither of the two cases holds. *)
Lemma C4_counterexample_zero_limit :
  searchAndGetLinks
    (Scenario.world (Some [Scenario.shape; Scenario.duet])
                    Scenario.fetchAll Scenario.inOrder)
    (Some "Shape") (ArgNumber 0) None =
  {| success := true; searchQuery := Some "Shape"; results := []; error := None |}.
Proof.
  reflexivity.
Qed.

(** C4, amended. Every returned result is of exactly one of two kinds:
    [success = true] with no error set, or [success = false] with an
    error set and [results = []]. On success [results] is populated
    whenever the effective limit is at least 1. [results] is a field of
    every result. *)
Theorem C4_result_shape
        (w : World) (songName : option string)
        (artistOrLimit : ArtistOrLimit) (limit : option Z) :
  let r := searchAndGetLinks w songName artistOrLimit limit in
  (success r = true /\ error r = None /\
   (1 <= effectiveLimit artistOrLimit limit -> results r <> [])) \/
  (success r = false /\ (exists message, error r = Some message) /\ results r = []).
Proof.
  intros r. subst r.
  destruct (searchAndGetLinks_cases w songName artistOrLimit limit)
    as [[song [body [items [infos [_ [_ [Hne [Hall [_ Hr]]]]]]]]]
       | [[song [body [_ [_ [_ Hr]]]]] | [e [_ [_ Hr]]]]];
    rewrite Hr; simpl.
  - left. split; [reflexivity|]. split; [reflexivity|].
    intros HL ->. apply Forall2_length in Hall. simpl in Hall.
    apply (slice0_nonempty items _ HL Hne).
    now apply length_zero_iff_nil.
  - right. eauto.
  - right. eauto.
Qed.

(** C5, as stated, fails when two extractions fail: both pages fail to
    load and the second failure settles first. The extraction of the
    first retained candidate has failed, yet the error of the call is not
    its message but the message of the second one. *)
Lemma C5_counterexample_two_failures :
  nth_error (retained (ArgNumber 2) None [Scenario.shape; Scenario.duet]) 0 =
    Some Scenario.shape /\
  getSpotifyLinks
    (Scenario.world (Some [Scenario.shape; Scenario.duet])
                    Scenario.fetchNone Scenario.secondFirst)
    (SpotifyApi.external_urls_spotify Scenario.shape) =
    Throw (ErrorInstance "Failed to fetch preview URLs: timeout on a") /\
  searchAndGetLinks
    (Scenario.world (Some [Scenario.shape; Scenario.duet])
                    Scenario.fetchNone Scenario.secondFirst)
    (Some "Shape") (ArgNumber 2) None =
    {| success := false; searchQuery := None; results := [];
       error := Some "Failed to fetch preview URLs: status 404 on b" |} /\
  String.eqb "Failed to fetch preview URLs: status 404 on b"
             "Failed to fetch preview URLs: timeout on a" = false.
Proof.
  split; [reflexivity|]. split; [reflexivity|]. split; reflexivity.
Qed.

(** C5, amended. If the extraction of a retained candidate fails, the
    call resolves to [success = false] with [results = []] (no partial
    results, whatever the other extractions did) and [error] is the
    message of the failing extraction that settles first: the message of
    that candidate when its failure is the first to settle, in particular
    when it is the only one to fail. The message of a failed extraction is
    the prefix [Failed to fetch preview URLs: ] followed by the message of
    the underlying failure ([Unknown error] when that is not an [Error]). *)
Theorem C5_extraction_failure_aborts
        (w : World) (songName : option string)
        (artistOrLimit : ArtistOrLimit) (limit : option Z)
        (song : string) (body : SpotifyApi.SearchResponse)
        (items : list SpotifyApi.TrackObjectFull)
        (k : nat) (track : SpotifyApi.TrackObjectFull) (e : Thrown)
        (Hanswered : CatalogAnswered w songName artistOrLimit limit song body)
        (Htracks : SpotifyApi.tracks body = Some items)
        (Hne : items <> [])
        (Hk : nth_error (retained artistOrLimit limit items) k = Some track)
        (He : getSpotifyLinks w (SpotifyApi.external_urls_spotify track) = Throw e) :
  let kept := retained artistOrLimit limit items in
  let r := searchAndGetLinks w songName artistOrLimit limit in
  success r = false /\ results r = [] /\
  (exists k' track' cause,
     nth_error kept k' = Some track' /\
     FirstFailure w kept k'
       (ErrorInstance ("Failed to fetch preview URLs: " ++ errorMessage cause)) /\
     (axios_get w (SpotifyApi.external_urls_spotify track') = Throw cause \/
      exists html,
        axios_get w (SpotifyApi.external_urls_spotify track') = Ok html /\
        cheerio_load w html = Throw cause) /\
     error r = Some ("Failed to fetch preview URLs: " ++ errorMessage cause)%string) /\
  (exists cause,
     e = ErrorInstance ("Failed to fetch preview URLs: " ++ errorMessage cause) /\
     (axios_get w (SpotifyApi.external_urls_spotify track) = Throw cause \/
      exists html,
        axios_get w (SpotifyApi.external_urls_spotify track) = Ok html /\
        cheerio_load w html = Throw cause)) /\
  (FirstFailure w kept k e -> error r = Some (errorMessage e)) /\
  ((forall j track',
      nth_error kept j = Some track' -> j <> k ->
      exists links,
        getSpotifyLinks w (SpotifyApi.external_urls_spotify track') = Ok links) ->
   error r = Some (errorMessage e)).
Proof.
  intros kept r.
  destruct (searchAndGetLinks_answered _ _ _ _ _ _ _ Hanswered Htracks Hne)
    as [[infos [Hall _]] | [k' [e' [Hfirst Hr]]]].
  - (* every extraction fulfilled: impossible, the k-th one failed *)
    exfalso. fold kept in Hall, Hk. clearbody kept.
    revert k Hk. induction Hall as [|t i ts infos' Ht _ IH]; intros [|k] Hk;
      try discriminate.
    + injection Hk as ->. apply trackToInfo_Ok_inv in Ht.
      destruct Ht as [Ht _]. congruence.
    + eauto.
  - fold kept in Hfirst. fold r in Hr.
    assert (Hsame : forall e0, FirstFailure w kept k e0 -> e0 = e' ).
    { intros e0 [[t0 [Ht0 He0]] Hmin0].
      destruct Hfirst as [[t' [Ht' He']] Hmin'].
      pose proof (Hmin0 _ _ _ Ht' He') as H1.
      pose proof (Hmin' _ _ _ Ht0 He0) as H2.
      assert (k' = k) as -> by (unfold settlesFirst in *; lia).
      congruence. }
    rewrite Hr. simpl.
    split; [reflexivity|]. split; [reflexivity|]. split; [|split; [|split]].
    + pose proof Hfirst as [[t' [Ht' He']] Hmin'].
      destruct (getSpotifyLinks_Throw_inv _ _ _ He') as [cause [-> Hcause]].
      exists k', t', cause. auto.
    + now apply getSpotifyLinks_Throw_inv.
    + intros Hmine. now rewrite (Hsame _ Hmine).
    + intros Hothers. rewrite (Hsame e); [reflexivity|].
      split; [eauto|]. intros j track' e0 Hj He0.
      destruct (Nat.eq_dec j k) as [->|Hjk].
      * right. split; lia.
      * destruct (Hothers _ _ Hj Hjk) as [links Hlinks]. congruence.
Qed.

(** C5 (amended) where the page of the second of two retained candidates
    fails to load, with a thrown value that is no [Error], and the first
    one loads. *)
Lemma C5_extraction_failure_aborts_witness :
  error
    (searchAndGetLinks
       (Scenario.world (Some [Scenario.shape; Scenario.duet])
                       Scenario.fetchOnlyA Scenario.secondFirst)
       (Some "Shape") (ArgNumber 2) None) =
  Some "Failed to fetch preview URLs: Unknown error".
Proof.
  refine (proj2 (proj2 (proj2 (proj2 (proj2
    (C5_extraction_failure_aborts
       (Scenario.world (Some [Scenario.shape; Scenario.duet])
                       Scenario.fetchOnlyA Scenario.secondFirst)
       (Some "Shape") (ArgNumber 2) None "Shape"
       {| SpotifyApi.tracks := Some [Scenario.shape; Scenario.duet] |}
       [Scenario.shape; Scenario.duet] 1 Scenario.duet
       (ErrorInstance "Failed to fetch preview URLs: Unknown error")
       _ _ _ _ _))))) _).
  - split; [reflexivity|]. split; [reflexivity|].
    exists {| clientId := "test_client_id"; clientSecret := "test_client_secret";
              accessToken := None |}, "token".
    split; [reflexivity|]. split; reflexivity.
  - reflexivity.
  - discriminate.
  - reflexivity.
  - reflexivity.
  - intros [|[|j]] track' Hj Hneq.
    + injection Hj as <-. eexists. reflexivity.
    + now elim Hneq.
    + destruct j; discriminate.
Defined.

(** C6. When the page is fetched and parsed, the extraction returns the
    attribute values of the document that contain the marker: each of
    them, nothing else, without repetition, and in the order of their
    first occurrence in the scan (the links placed before a link are the
    matching values met before its first occurrence). The extraction
    returns the empty sequence exactly when the page was fetched and
    parsed and no attribute value contains the marker. *)
Theorem C6_extraction_result (w : World) (url : string) :
  (forall html elements,
     axios_get w url = Ok html ->
     cheerio_load w html = Ok elements ->
     exists links,
       getSpotifyLinks w url = Ok links /\
       NoDup links /\
       (forall v, In v links <->
                  In v (attributeValues elements) /\ includes v scdnMarker = true) /\
       (forall before v after,
          links = before ++ v :: after ->
          exists seen rest,
            attributeValues elements = seen ++ v :: rest /\
            ~ In v seen /\
            forall u, In u before <->
                      In u seen /\ includes u scdnMarker = true)) /\
  (getSpotifyLinks w url = Ok [] <->
   exists html elements,
     axios_get w url = Ok html /\
     cheerio_load w html = Ok elements /\
     forall v, In v (attributeValues elements) -> includes v scdnMarker = false).
Proof.
  split.
  - intros html elements Hget Hload.
    exists (scanValues [] (attributeValues elements)).
    split; [apply getSpotifyLinks_Ok_iff; eauto|].
    split; [apply scanValues_NoDup|].
    split; [apply scanValues_In | apply scanValues_first_occurrence].
  - rewrite getSpotifyLinks_Ok_iff. split.
    + intros [html [elements [Hget [Hload Hnil]]]].
      exists html, elements. split; [exact Hget|]. split; [exact Hload|].
      intros v Hv. destruct (includes v scdnMarker) eqn:Hinc; [|reflexivity].
      assert (In v (scanValues [] (attributeValues elements))) as Hin
        by (apply scanValues_In; auto).
      rewrite <- Hnil in Hin. destruct Hin.
    + intros [html [elements [Hget [Hload Hnone]]]].
      exists html, elements. split; [exact Hget|]. split; [exact Hload|].
      destruct (scanValues [] (attributeValues elements)) as [|v links] eqn:Hscan;
        [reflexivity|].
      assert (In v (scanValues [] (attributeValues elements))) as Hin
        by (rewrite Hscan; now left).
      apply scanValues_In in Hin. destruct Hin as [Hin Hinc].
      rewrite (Hnone _ Hin) in Hinc. discriminate.
Qed.

(** The extraction on the page of the first scenario track: four
    attribute values, three of them with the marker, two of them equal. *)
Example getSpotifyLinks_pageA :
  attributeValues Scenario.pageA =
    ["https://p.scdn.co/mp3-preview/abc"; "player";
     "https://p.scdn.co/mp3-preview/abc"; "https://p.scdn.co/mp3-preview/xyz"] /\
  getSpotifyLinks
    (Scenario.world None Scenario.fetchAll Scenario.inOrder)
    "https://open.spotify.com/track/a" =
    Ok ["https://p.scdn.co/mp3-preview/abc"; "https://p.scdn.co/mp3-preview/xyz"] /\
  getSpotifyLinks
    (Scenario.world None Scenario.fetchAll Scenario.inOrder)
    "https://open.spotify.com/track/b" = Ok [] /\
  getSpotifyLinks
    (Scenario.world None (fun _ => Ok "malformed") Scenario.inOrder)
    "https://open.spotify.com/track/a" =
    Throw (ErrorInstance "Failed to fetch preview URLs: Unknown error").
Proof.
  split; [reflexivity|]. split; [reflexivity|]. split; reflexivity.
Qed.

(** C7. In every successful call, [results] has one record per retained
    candidate, in the order of the retained candidates: the i-th record is
    built from the i-th candidate (its name is the title, then [ - ],
    then the artist names joined by [, ] in catalog order; its links are
    those extracted from the page of that candidate). The order in which
    the extractions settle plays no part: with any other settlement times
    the call returns the same result. *)
Theorem C7_results_follow_candidates
        (w : World) (songName : option string)
        (artistOrLimit : ArtistOrLimit) (limit : option Z)
        (Hsuccess : success (searchAndGetLinks w songName artistOrLimit limit) = true) :
  let r := searchAndGetLinks w songName artistOrLimit limit in
  exists song body items,
    CatalogAnswered w songName artistOrLimit limit song body /\
    SpotifyApi.tracks body = Some items /\
    let kept := retained artistOrLimit limit items in
    List.length (results r) = List.length kept /\
    (forall i track,
       nth_error kept i = Some track ->
       exists info,
         nth_error (results r) i = Some info /\
         name info =
           (SpotifyApi.name track ++ " - " ++
            join ", " (map SpotifyApi.artist_name (SpotifyApi.artists track)))%string /\
         BuiltFrom w track info) /\
    (forall settle,
       searchAndGetLinks (withSettleTime w settle) songName artistOrLimit limit = r).
Proof.
  intros r.
  destruct (searchAndGetLinks_success_inv _ _ _ _ Hsuccess)
    as [song [body [items [infos [Hanswered [Htracks [Hne [Hall Hr]]]]]]]].
  exists song, body, items. split; [exact Hanswered|]. split; [exact Htracks|].
  intros kept. subst r. rewrite Hr. simpl. fold kept in Hall.
  split; [symmetry; eapply Forall2_length; eauto|]. split.
  - clearbody kept. clear Hr.
    induction Hall as [|t info ts infos' Ht _ IH]; intros [|i] track Hi;
      try discriminate.
    + injection Hi as <-. exists info. split; [reflexivity|].
      apply trackToInfo_Ok_inv in Ht. split; [apply Ht | exact Ht].
    + simpl. eauto.
  - intros settle.
    assert (Hanswered' : CatalogAnswered (withSettleTime w settle)
                           songName artistOrLimit limit song body)
      by exact Hanswered.
    unfold searchAndGetLinks.
    rewrite (try_after_search _ _ _ _ _ _ Hanswered').
    rewrite (processSearchResults_items _ _ _ _ _ Htracks Hne).
    assert (Promise_all (settleTime (withSettleTime w settle))
              (map (trackToInfo (withSettleTime w settle))
                   (slice0 items (effectiveLimit artistOrLimit limit)))
            = Ok infos) as ->; [|reflexivity].
    apply fanOut_Ok_iff. exact Hall.
Qed.

(** C7 at two catalog items whose second extraction settles first. *)
Lemma C7_results_follow_candidates_witness :
  exists song body items,
    CatalogAnswered
      (Scenario.world (Some [Scenario.shape; Scenario.duet])
                      Scenario.fetchAll Scenario.secondFirst)
      (Some "Shape") ArgUndefined None song body /\
    SpotifyApi.tracks body = Some items /\
    List.length
      (results
         (searchAndGetLinks
            (Scenario.world (Some [Scenario.shape; Scenario.duet])
                            Scenario.fetchAll Scenario.secondFirst)
            (Some "Shape") ArgUndefined None)) =
    List.length (retained ArgUndefined None items).
Proof.
  destruct (C7_results_follow_candidates
              (Scenario.world (Some [Scenario.shape; Scenario.duet])
                              Scenario.fetchAll Scenario.secondFirst)
              (Some "Shape") ArgUndefined None eq_refl)
    as [song [body [items [H1 [H2 [H3 _]]]]]].
  exists song, body, items. auto.
Defined.

(** The names and the order of the records in that scenario. *)
Example results_in_candidate_order :
  map name
    (results
       (searchAndGetLinks
          (Scenario.world (Some [Scenario.shape; Scenario.duet])
                          Scenario.fetchAll Scenario.secondFirst)
          (Some "Shape") ArgUndefined None)) =
  ["Shape of You - Ed Sheeran"; "Perfect Duet - Ed Sheeran, Beyonce"].
Proof.
  reflexivity.
Qed.

(** Failure modes of C1 on concrete worlds: no credentials in the
    environment; a credential exchange that rejects with a value that is
    no [Error]; a search that rejects with an [Error]. *)
Example failure_modes_normalized :
  searchAndGetLinks
    {| env_SPOTIFY_CLIENT_ID := None;
       env_SPOTIFY_CLIENT_SECRET := None;
       clientCredentialsGrant := fun _ => Ok "token";
       searchTracks := fun _ _ => Ok {| SpotifyApi.tracks := None |};
       axios_get := Scenario.fetchAll;
       cheerio_load := fun _ => Ok [];
       settleTime := Scenario.inOrder |}
    (Some "Test Song") ArgUndefined None =
  failureResult
    "SPOTIFY_CLIENT_ID and SPOTIFY_CLIENT_SECRET environment variables are required" /\
  searchAndGetLinks
    {| env_SPOTIFY_CLIENT_ID := Some "id";
       env_SPOTIFY_CLIENT_SECRET := Some "secret";
       clientCredentialsGrant := fun _ => Throw (NonError "rejected with a string");
       searchTracks := fun _ _ => Ok {| SpotifyApi.tracks := None |};
       axios_get := Scenario.fetchAll;
       cheerio_load := fun _ => Ok [];
       settleTime := Scenario.inOrder |}
    (Some "Test Song") (ArgString "Test Artist") (Some 3) =
  failureResult "Unknown error" /\
  searchAndGetLinks
    {| env_SPOTIFY_CLIENT_ID := Some "id";
       env_SPOTIFY_CLIENT_SECRET := Some "secret";
       clientCredentialsGrant := fun _ => Ok "token";
       searchTracks := fun _ _ => Throw (ErrorInstance "getaddrinfo ENOTFOUND");
       axios_get := Scenario.fetchAll;
       cheerio_load := fun _ => Ok [];
       settleTime := Scenario.inOrder |}
    (Some "Test Song") (ArgNumber 5) None =
  failureResult "getaddrinfo ENOTFOUND".
Proof.
  split; [reflexivity|]. split; reflexivity.
Qed.

(** ** Further properties of the source *)

Section MoreOutcomes.

Variable w : World.
Variable songName : option string.
Variable artistOrLimit : ArtistOrLimit.
Variable limit : option Z.

(** The catalog answer of a call is unique. *)
Lemma CatalogAnswered_unique song body song' body' :
  CatalogAnswered w songName artistOrLimit limit song body ->
  CatalogAnswered w songName artistOrLimit limit song' body' ->
  song = song' /\ body = body'.
Proof.
  intros [Hs [_ [api [token [Hapi [Hgrant Hsearch]]]]]]
         [Hs' [_ [api' [token' [Hapi' [Hgrant' Hsearch']]]]]].
  assert (song = song') as <- by congruence.
  assert (api = api') as <- by congruence.
  assert (token = token') as <- by congruence.
  split; congruence.
Qed.

(** A successful call, seen from a known catalog answer. *)
Lemma searchAndGetLinks_success_answered song body items :
  CatalogAnswered w songName artistOrLimit limit song body ->
  SpotifyApi.tracks body = Some items ->
  success (searchAndGetLinks w songName artistOrLimit limit) = true ->
  exists infos,
    Forall2 (fun track info => trackToInfo w track = Ok info)
            (retained artistOrLimit limit items) infos /\
    searchAndGetLinks w songName artistOrLimit limit =
      {| success := true;
         searchQuery := Some (resolvedQuery song artistOrLimit limit);
         results := infos; error := None |}.
Proof.
  intros Hanswered Htracks Hsuccess.
  destruct (searchAndGetLinks_success_inv _ _ _ _ Hsuccess)
    as [song' [body' [items' [infos [Hanswered' [Htracks' [_ [Hall Hr]]]]]]]].
  destruct (CatalogAnswered_unique _ _ _ _ Hanswered Hanswered') as [<- <-].
  assert (items' = items) as -> by congruence.
  exists infos. auto.
Qed.

End MoreOutcomes.

Lemma Forall2_In_left {A B : Type} (R : A -> B -> Prop) (xs : list A) (ys : list B) :
  Forall2 R xs ys -> forall x, In x xs -> exists y, In y ys /\ R x y.
Proof.
  induction 1 as [|x0 y0 xs ys Hxy _ IH]; intros x Hin; [destruct Hin|].
  destruct Hin as [<-|Hin].
  - exists y0. split; [now left | exact Hxy].
  - destruct (IH _ Hin) as [y [Hy HR]]. exists y. split; [now right | exact HR].
Qed.

Lemma Forall2_In_right {A B : Type} (R : A -> B -> Prop) (xs : list A) (ys : list B) :
  Forall2 R xs ys -> forall y, In y ys -> exists x, In x xs /\ R x y.
Proof.
  induction 1 as [|x0 y0 xs ys Hxy _ IH]; intros y Hin; [destruct Hin|].
  destruct Hin as [<-|Hin].
  - exists x0. split; [now left | exact Hxy].
  - destruct (IH _ Hin) as [x [Hx HR]]. exists x. split; [now right | exact HR].
Qed.

Lemma Forall2_map_eq {A B C : Type} (R : A -> B -> Prop)
      (f : A -> C) (g : B -> C) (xs : list A) (ys : list B) :
  (forall x y, R x y -> g y = f x) ->
  Forall2 R xs ys -> map g ys = map f xs.
Proof.
  intros Hfg. induction 1 as [|x y xs ys Hxy _ IH]; simpl; [reflexivity|].
  now rewrite IH, (Hfg _ _ Hxy).
Qed.

(** X1. Without usable credentials (either environment variable unset or
    empty) a call with a song name fails with the configuration message,
    which contains the phrase that the test suite looks for; nothing that
    the catalog or the network would answer changes the result. *)
Theorem X1_missing_credentials
        (w : World) (song : string)
        (artistOrLimit : ArtistOrLimit) (limit : option Z)
        (Hsong : song <> EmptyString)
        (Henv : truthy_opt (env_SPOTIFY_CLIENT_ID w) = false \/
                truthy_opt (env_SPOTIFY_CLIENT_SECRET w) = false) :
  createSpotifyApi w =
    Throw (ErrorInstance
      "SPOTIFY_CLIENT_ID and SPOTIFY_CLIENT_SECRET environment variables are required") /\
  searchAndGetLinks w (Some song) artistOrLimit limit =
    {| success := false; searchQuery := None; results := [];
       error := Some
         "SPOTIFY_CLIENT_ID and SPOTIFY_CLIENT_SECRET environment variables are required" |} /\
  includes
    "SPOTIFY_CLIENT_ID and SPOTIFY_CLIENT_SECRET environment variables are required"
    "environment variables are required" = true.
Proof.
  assert (Hapi : createSpotifyApi w =
    Throw (ErrorInstance
      "SPOTIFY_CLIENT_ID and SPOTIFY_CLIENT_SECRET environment variables are required")).
  { unfold createSpotifyApi.
    destruct (env_SPOTIFY_CLIENT_ID w) as [id|];
      destruct (env_SPOTIFY_CLIENT_SECRET w) as [secret|]; simpl in *;
      try reflexivity.
    destruct Henv as [-> | ->]; [reflexivity|].
    now rewrite orb_true_r. }
  split; [exact Hapi|]. split; [|reflexivity].
  unfold searchAndGetLinks. rewrite try_unfold.
  destruct song; [congruence|]. simpl. now rewrite Hapi.
Qed.

(** X1 where both variables are unset and the catalog would answer. *)
Lemma X1_missing_credentials_witness :
  searchAndGetLinks
    {| env_SPOTIFY_CLIENT_ID := None;
       env_SPOTIFY_CLIENT_SECRET := None;
       clientCredentialsGrant := fun _ => Ok "token";
       searchTracks := fun _ _ => Ok {| SpotifyApi.tracks := Some [Scenario.shape] |};
       axios_get := Scenario.fetchAll;
       cheerio_load := fun _ => Ok [];
       settleTime := Scenario.inOrder |}
    (Some "Test Song") ArgUndefined None =
    {| success := false; searchQuery := None; results := [];
       error := Some
         "SPOTIFY_CLIENT_ID and SPOTIFY_CLIENT_SECRET environment variables are required" |}.
Proof.
  refine (proj1 (proj2 (X1_missing_credentials _ "Test Song" ArgUndefined None _ _))).
  - discriminate.
  - left. reflexivity.
Defined.

(** X2. The third argument is read only when the second is a string: with
    a number as second argument it is ignored, and so it is with no second
    argument, where the limit is 5 whatever the third argument says. A
    call with the song name alone behaves as the call with the limit 5,
    and a call with an artist and no limit as the one with the limit 5. *)
Theorem X2_third_argument
        (w : World) (songName : option string) (n : Z) (artist : string)
        (limit limit' : option Z) :
  searchAndGetLinks w songName (ArgNumber n) limit =
    searchAndGetLinks w songName (ArgNumber n) limit' /\
  searchAndGetLinks w songName ArgUndefined limit =
    searchAndGetLinks w songName ArgUndefined limit' /\
  searchAndGetLinks w songName ArgUndefined limit =
    searchAndGetLinks w songName (ArgNumber 5) limit' /\
  searchAndGetLinks w songName (ArgString artist) None =
    searchAndGetLinks w songName (ArgString artist) (Some 5).
Proof.
  unfold searchAndGetLinks. rewrite !try_unfold.
  split; [reflexivity|]. split; [reflexivity|]. split; reflexivity.
Qed.

(** X3. A call succeeds exactly when the catalog answers its query with a
    non-empty item list and the page of every retained candidate is
    fetched and parsed. *)
Theorem X3_success_iff
        (w : World) (songName : option string)
        (artistOrLimit : ArtistOrLimit) (limit : option Z) :
  success (searchAndGetLinks w songName artistOrLimit limit) = true <->
  exists song body items,
    CatalogAnswered w songName artistOrLimit limit song body /\
    SpotifyApi.tracks body = Some items /\ items <> [] /\
    forall track,
      In track (retained artistOrLimit limit items) ->
      exists html elements,
        axios_get w (SpotifyApi.external_urls_spotify track) = Ok html /\
        cheerio_load w html = Ok elements.
Proof.
  split.
  - intros Hsuccess.
    destruct (searchAndGetLinks_success_inv _ _ _ _ Hsuccess)
      as [song [body [items [infos [Hanswered [Htracks [Hne [Hall _]]]]]]]].
    exists song, body, items. repeat (split; [assumption|]).
    intros track Hin.
    destruct (Forall2_In_left _ _ _ Hall _ Hin) as [info [_ Hinfo]].
    apply trackToInfo_Ok_inv in Hinfo. destruct Hinfo as [Hlinks _].
    apply getSpotifyLinks_Ok_iff in Hlinks.
    destruct Hlinks as [html [elements [Hget [Hload _]]]]. eauto.
  - intros [song [body [items [Hanswered [Htracks [Hne Hpages]]]]]].
    destruct (searchAndGetLinks_answered _ _ _ _ _ _ _ Hanswered Htracks Hne)
      as [[infos [_ ->]] | [k [e [[[track [Hk He]] _] _]]]]; [reflexivity|].
    exfalso. apply nth_error_In in Hk.
    destruct (Hpages _ Hk) as [html [elements [Hget Hload]]].
    assert (getSpotifyLinks w (SpotifyApi.external_urls_spotify track) =
            Ok (scanValues [] (attributeValues elements))) as Hok
      by (apply getSpotifyLinks_Ok_iff; eauto).
    congruence.
Qed.

(** X4. In a successful result the preview links of every track are
    pairwise distinct, none is the empty string, and each contains the
    marker [p.scdn.co]. *)
Theorem X4_preview_urls
        (w : World) (songName : option string)
        (artistOrLimit : ArtistOrLimit) (limit : option Z) (info : TrackInfo)
        (Hsuccess : success (searchAndGetLinks w songName artistOrLimit limit) = true)
        (Hinfo : In info (results (searchAndGetLinks w songName artistOrLimit limit))) :
  NoDup (previewUrls info) /\
  forall url, In url (previewUrls info) ->
              includes url "p.scdn.co" = true /\ url <> EmptyString.
Proof.
  destruct (searchAndGetLinks_success_inv _ _ _ _ Hsuccess)
    as [song [body [items [infos [_ [_ [_ [Hall Hr]]]]]]]].
  rewrite Hr in Hinfo. simpl in Hinfo.
  destruct (Forall2_In_right _ _ _ Hall _ Hinfo) as [track [_ Htrack]].
  apply trackToInfo_Ok_inv in Htrack. destruct Htrack as [Hlinks _].
  apply getSpotifyLinks_Ok_iff in Hlinks.
  destruct Hlinks as [html [elements [_ [_ ->]]]].
  split; [apply scanValues_NoDup|].
  intros url Hurl. apply scanValues_In in Hurl. destruct Hurl as [_ Hinc].
  split; [exact Hinc|].
  intros ->. discriminate.
Qed.

(** X4 on the first track of the two-item scenario. *)
Lemma X4_preview_urls_witness :
  NoDup ["https://p.scdn.co/mp3-preview/abc"; "https://p.scdn.co/mp3-preview/xyz"].
Proof.
  refine (proj1
    (X4_preview_urls
       (Scenario.world (Some [Scenario.shape; Scenario.duet])
                       Scenario.fetchAll Scenario.inOrder)
       (Some "Shape") ArgUndefined None
       {| name := "Shape of You - Ed Sheeran";
          spotifyUrl := "https://open.spotify.com/track/a";
          previewUrls := ["https://p.scdn.co/mp3-preview/abc";
                          "https://p.scdn.co/mp3-preview/xyz"];
          trackId := "id:Shape of You";
          albumName := "Album";
          releaseDate := "2017-01-06";
          popularity := 85;
          durationMs := 233712 |} _ _)).
  - reflexivity.
  - left. reflexivity.
Defined.

(** X5. With a limit that is not negative, a successful result lists the
    first catalog items in catalog order: its track identifiers and page
    addresses are those of the first [limit] items, and popularity and
    duration are passed through, so bounds that hold of every catalog item
    hold of every result. *)
Theorem X5_results_are_first_items
        (w : World) (songName : option string)
        (artistOrLimit : ArtistOrLimit) (limit : option Z)
        (song : string) (body : SpotifyApi.SearchResponse)
        (items : list SpotifyApi.TrackObjectFull)
        (Hanswered : CatalogAnswered w songName artistOrLimit limit song body)
        (Htracks : SpotifyApi.tracks body = Some items)
        (Hsuccess : success (searchAndGetLinks w songName artistOrLimit limit) = true)
        (Hlimit : 0 <= effectiveLimit artistOrLimit limit) :
  let r := searchAndGetLinks w songName artistOrLimit limit in
  let n := Z.to_nat (effectiveLimit artistOrLimit limit) in
  map trackId (results r) = firstn n (map SpotifyApi.id items) /\
  map spotifyUrl (results r) = firstn n (map SpotifyApi.external_urls_spotify items) /\
  map popularity (results r) = firstn n (map SpotifyApi.popularity items) /\
  map durationMs (results r) = firstn n (map SpotifyApi.duration_ms items) /\
  forall lo hi,
    (forall item, In item items ->
                  lo <= SpotifyApi.popularity item <= hi /\
                  0 <= SpotifyApi.duration_ms item) ->
    forall info, In info (results r) ->
                 lo <= popularity info <= hi /\ 0 <= durationMs info.
Proof.
  intros r n. subst r.
  destruct (searchAndGetLinks_success_answered _ _ _ _ _ _ _
              Hanswered Htracks Hsuccess) as [infos [Hall ->]].
  simpl.
  assert (Hkept : retained artistOrLimit limit items = firstn n items).
  { unfold retained, slice0. subst n.
    destruct (Z.ltb_spec (effectiveLimit artistOrLimit limit) 0); [lia|].
    destruct (Z.le_ge_cases (effectiveLimit artistOrLimit limit)
                            (Z.of_nat (List.length items))) as [Hle|Hge].
    - now rewrite Z.min_l.
    - rewrite Z.min_r by exact Hge. rewrite Nat2Z.id.
      rewrite firstn_all. symmetry. apply firstn_all2. lia. }
  rewrite Hkept in Hall.
  rewrite !firstn_map.
  split; [|split; [|split; [|split]]];
    try (apply (Forall2_map_eq _ _ _ _ _) with (2 := Hall);
         intros track info Hinfo; apply trackToInfo_Ok_inv in Hinfo; apply Hinfo).
  intros lo hi Hbounds info Hin.
  destruct (Forall2_In_right _ _ _ Hall _ Hin) as [track [Htrack Hinfo]].
  apply trackToInfo_Ok_inv in Hinfo.
  destruct Hinfo as [_ [_ [_ [_ [_ [_ [-> ->]]]]]]].
  apply Hbounds. rewrite <- (firstn_skipn n items). apply in_or_app. now left.
Qed.

(** X5 at a limit of 1 over the two-item scenario. *)
Lemma X5_results_are_first_items_witness :
  map trackId
    (results
       (searchAndGetLinks
          (Scenario.world (Some [Scenario.shape; Scenario.duet])
                          Scenario.fetchAll Scenario.secondFirst)
          (Some "Shape") (ArgString "Ed Sheeran") (Some 1))) =
  ["id:Shape of You"].
Proof.
  refine (proj1
    (X5_results_are_first_items
       (Scenario.world (Some [Scenario.shape; Scenario.duet])
                       Scenario.fetchAll Scenario.secondFirst)
       (Some "Shape") (ArgString "Ed Sheeran") (Some 1) "Shape"
       {| SpotifyApi.tracks := Some [Scenario.shape; Scenario.duet] |}
       [Scenario.shape; Scenario.duet] _ _ _ _)).
  - split; [reflexivity|]. split; [reflexivity|].
    exists {| clientId := "test_client_id"; clientSecret := "test_client_secret";
              accessToken := None |}, "token".
    split; [reflexivity|]. split; reflexivity.
  - reflexivity.
  - reflexivity.
  - discriminate.
Defined.

(** X6. When the limit retains no candidate (a limit of 0, or a negative
    limit that drops at least as many items as the catalog returned), the
    call succeeds with an empty [results] and reports its query; no page
    is consulted, so the result is the same whatever the fetches would
    answer. *)
Theorem X6_nothing_retained
        (w : World) (songName : option string)
        (artistOrLimit : ArtistOrLimit) (limit : option Z)
        (song : string) (body : SpotifyApi.SearchResponse)
        (items : list SpotifyApi.TrackObjectFull)
        (Hanswered : CatalogAnswered w songName artistOrLimit limit song body)
        (Htracks : SpotifyApi.tracks body = Some items)
        (Hne : items <> [])
        (Hlimit : effectiveLimit artistOrLimit limit = 0 \/
                  effectiveLimit artistOrLimit limit <= - Z.of_nat (List.length items)) :
  searchAndGetLinks w songName artistOrLimit limit =
    {| success := true;
       searchQuery := Some (resolvedQuery song artistOrLimit limit);
       results := []; error := None |}.
Proof.
  assert (Hkept : slice0 items (effectiveLimit artistOrLimit limit) = []).
  { destruct Hlimit as [-> | Hneg]; [apply slice0_zero|].
    apply length_zero_iff_nil. apply Nat2Z.inj. rewrite slice0_length.
    destruct items as [|t rest]; [congruence|]. simpl List.length in *.
    destruct (Z.ltb_spec (effectiveLimit artistOrLimit limit) 0); lia. }
  unfold searchAndGetLinks.
  rewrite (try_after_search _ _ _ _ _ _ Hanswered).
  rewrite (processSearchResults_items _ _ _ _ _ Htracks Hne).
  rewrite Hkept. reflexivity.
Qed.

(** X6 at a limit of -2 over two catalog items whose pages all fail to
    load. *)
Lemma X6_nothing_retained_witness :
  searchAndGetLinks
    (Scenario.world (Some [Scenario.shape; Scenario.duet])
                    Scenario.fetchNone Scenario.inOrder)
    (Some "Shape") (ArgNumber (-2)) None =
    {| success := true; searchQuery := Some "Shape"; results := []; error := None |}.
Proof.
  refine (X6_nothing_retained
       (Scenario.world (Some [Scenario.shape; Scenario.duet])
                       Scenario.fetchNone Scenario.inOrder)
       (Some "Shape") (ArgNumber (-2)) None "Shape"
       {| SpotifyApi.tracks := Some [Scenario.shape; Scenario.duet] |}
       [Scenario.shape; Scenario.duet] _ _ _ _).
  - split; [reflexivity|]. split; [reflexivity|].
    exists {| clientId := "test_client_id"; clientSecret := "test_client_secret";
              accessToken := None |}, "token".
    split; [reflexivity|]. split; reflexivity.
  - reflexivity.
  - discriminate.
  - right. vm_compute. discriminate.
Defined.

(** X7. The failure of an extraction: [getSpotifyLinks] throws exactly
    when the fetch rejects or the parse throws, and what it throws is
    always an [Error] whose message is the prefix followed by the message
    of that cause ([Unknown error] for a cause that is no [Error]); the
    cause itself is never rethrown. *)
Theorem X7_extraction_failure (w : World) (url : string) (e : Thrown) :
  getSpotifyLinks w url = Throw e <->
  exists cause,
    (axios_get w url = Throw cause \/
     exists html, axios_get w url = Ok html /\ cheerio_load w html = Throw cause) /\
    e = ErrorInstance
          (match cause with
           | ErrorInstance message => "Failed to fetch preview URLs: " ++ message
           | NonError _ => "Failed to fetch preview URLs: Unknown error"
           end).
Proof.
  split.
  - intros H. destruct (getSpotifyLinks_Throw_inv _ _ _ H) as [cause [-> Hcause]].
    exists cause. split; [exact Hcause|]. now destruct cause.
  - intros [cause [Hcause ->]].
    unfold getSpotifyLinks, getSpotifyLinks_try, Js.bind.
    destruct Hcause as [-> | [html [-> ->]]]; now destruct cause.
Qed.

(** *** The search query and the double quote *)

Section Quotes.

Lemma length_append (a b : string) :
  String.length (a ++ b) = (String.length a + String.length b)%nat.
Proof.
  induction a as [|c a IH]; simpl; [reflexivity | now rewrite IH].
Qed.

(** Two quote-free strings followed by a double quote are told apart by
    that quote. *)
Lemma append_quote_inj (s s' rest rest' : string) :
  quoteFree s = true -> quoteFree s' = true ->
  (s ++ String (ascii_of_nat 34) rest = s' ++ String (ascii_of_nat 34) rest')%string ->
  s = s' /\ rest = rest'.
Proof.
  revert s'. induction s as [|c s IH]; intros [|c' s'] Hs Hs' Heq; simpl in *.
  - injection Heq as ->. auto.
  - injection Heq as <- _. rewrite Ascii.eqb_refl in Hs'. discriminate.
  - injection Heq as -> _. rewrite Ascii.eqb_refl in Hs. discriminate.
  - injection Heq as -> Heq.
    apply andb_true_iff in Hs, Hs'. destruct Hs as [_ Hs], Hs' as [_ Hs'].
    destruct (IH _ Hs Hs' Heq) as [-> ->]. auto.
Qed.

Lemma append_last_inj (a a' : string) (c : ascii) :
  (a ++ String c EmptyString = a' ++ String c EmptyString)%string -> a = a'.
Proof.
  revert a'. induction a as [|d a IH]; intros [|d' a'] Heq; simpl in *.
  - reflexivity.
  - injection Heq as _ Heq. destruct a'; discriminate.
  - injection Heq as _ Heq. destruct a; discriminate.
  - injection Heq as -> Heq. now rewrite (IH _ Heq).
Qed.

End Quotes.

(** X8. The song name and the artist enter the query verbatim, so a
    double quote in them is not told from the quotes of the template: a
    song name that ends like a qualified query yields the same query as a
    different song name with a longer artist. *)
Theorem X8_query_not_escaped
        (song artist1 artist2 : string) (limit : option Z)
        (Hartist : artist2 <> EmptyString) :
  let glue := (dquote ++ " artist:" ++ dquote)%string in
  resolvedQuery (song ++ glue ++ artist1) (ArgString artist2) limit =
  resolvedQuery song (ArgString (artist1 ++ glue ++ artist2)) limit /\
  (String.length song < String.length (song ++ glue ++ artist1))%nat.
Proof.
  intros glue. split.
  - unfold resolvedQuery, buildSearchQuery, parseParameters. cbn [fst].
    assert (truthy artist2 = true) as -> by (destruct artist2; [congruence | reflexivity]).
    assert (truthy (artist1 ++ glue ++ artist2) = true) as ->
      by (destruct artist1; reflexivity).
    subst glue. rewrite !append_assoc. reflexivity.
  - subst glue. rewrite !length_append. simpl. lia.
Qed.

(** X8 at a song name that carries an artist qualifier of its own. *)
Lemma X8_query_not_escaped_witness :
  resolvedQuery ("Hello" ++ (dquote ++ " artist:" ++ dquote) ++ "Adele")
                (ArgString "Queen") None =
  resolvedQuery "Hello"
                (ArgString ("Adele" ++ (dquote ++ " artist:" ++ dquote) ++ "Queen"))
                None.
Proof.
  refine (proj1 (X8_query_not_escaped "Hello" "Adele" "Queen" None _)).
  discriminate.
Defined.

(** X9. On song names without a double quote the qualified query keeps
    its inputs apart: two calls with non-empty artists and the same query
    have the same song name and the same artist. *)
Theorem X9_query_injective
        (song artist song' artist' : string) (limit limit' : option Z)
        (Hsong : quoteFree song = true)
        (Hsong' : quoteFree song' = true)
        (Hartist : artist <> EmptyString)
        (Hartist' : artist' <> EmptyString)
        (Hquery : resolvedQuery song (ArgString artist) limit =
                  resolvedQuery song' (ArgString artist') limit') :
  song = song' /\ artist = artist'.
Proof.
  unfold resolvedQuery, buildSearchQuery, parseParameters in Hquery.
  cbn [fst] in Hquery.
  assert (truthy artist = true) as Ht by (destruct artist; [congruence | reflexivity]).
  assert (truthy artist' = true) as Ht' by (destruct artist'; [congruence | reflexivity]).
  rewrite Ht, Ht' in Hquery. unfold dquote in Hquery. simpl in Hquery.
  injection Hquery as Hquery.
  apply append_quote_inj in Hquery; [|assumption|assumption].
  destruct Hquery as [-> Hrest]. split; [reflexivity|].
  injection Hrest as Hrest. now apply append_last_inj in Hrest.
Qed.

(** X9 at the song and artist of the second usage example. *)
Lemma X9_query_injective_witness :
  "Bohemian Rhapsody" = "Bohemian Rhapsody" /\ "Queen" = "Queen".
Proof.
  refine (X9_query_injective "Bohemian Rhapsody" "Queen" "Bohemian Rhapsody" "Queen"
                             (Some 1) None _ _ _ _ _).
  - reflexivity.
  - reflexivity.
  - discriminate.
  - discriminate.
  - reflexivity.
Defined.

(** *** The usage examples *)

Section Callers.

Variable w : World.
Variable song : string.
Variable artistOrLimit : ArtistOrLimit.
Variable limit : option Z.

(** What a caller that branches on [success] finds in the failure branch. *)
Lemma failure_has_error :
  success (searchAndGetLinks w (Some song) artistOrLimit limit) = false ->
  exists message,
    error (searchAndGetLinks w (Some song) artistOrLimit limit) = Some message.
Proof.
  intros Hfalse.
  destruct (searchAndGetLinks_cases w (Some song) artistOrLimit limit)
    as [[s [body [items [infos [_ [_ [_ [_ [_ Hr]]]]]]]]]
       | [[s [body [_ [_ [_ Hr]]]]] | [e [_ [_ Hr]]]]];
    rewrite Hr in *; simpl in *; [discriminate | eauto | eauto].
Qed.

(** What a caller finds in the success branch. *)
Lemma success_has_query :
  success (searchAndGetLinks w (Some song) artistOrLimit limit) = true ->
  searchQuery (searchAndGetLinks w (Some song) artistOrLimit limit) =
    Some (resolvedQuery song artistOrLimit limit) /\
  exists items : list SpotifyApi.TrackObjectFull,
    items <> [] /\
    List.length (results (searchAndGetLinks w (Some song) artistOrLimit limit)) =
    List.length (slice0 items (effectiveLimit artistOrLimit limit)).
Proof.
  intros Hsuccess.
  destruct (searchAndGetLinks_success_inv _ _ _ _ Hsuccess)
    as [s [body [items [infos [[Hs _] [_ [Hne [Hall Hr]]]]]]]].
  injection Hs as <-. rewrite Hr. simpl. split; [reflexivity|].
  exists items. split; [exact Hne|]. symmetry. eapply Forall2_length; eauto.
Qed.

(** With a limit of 1 a successful call returns exactly one track. *)
Lemma success_limit_one :
  effectiveLimit artistOrLimit limit = 1 ->
  success (searchAndGetLinks w (Some song) artistOrLimit limit) = true ->
  exists track,
    results (searchAndGetLinks w (Some song) artistOrLimit limit) = [track].
Proof.
  intros Hone Hsuccess.
  destruct (success_has_query Hsuccess) as [_ [items [Hne Hlen]]].
  apply (f_equal Z.of_nat) in Hlen. rewrite slice0_length, Hone in Hlen.
  simpl in Hlen.
  destruct items as [|t items]; [congruence|]. simpl List.length in Hlen.
  destruct (results _) as [|track [|track' rest]]; simpl in Hlen; try lia.
  eauto.
Qed.

End Callers.

Lemma forEachIndexed_length {A : Type} (f : A -> nat -> list Example.ConsoleEntry)
      (n : nat) (items : list A) :
  (forall item index, List.length (f item index) = n) ->
  forall index,
    List.length (Example.forEachIndexed f index items) = (n * List.length items)%nat.
Proof.
  intros Hf. induction items as [|item items IH]; intros index; simpl; [lia|].
  rewrite length_app, Hf, IH. lia.
Qed.

(** X10. [basicSearch] prints its header and then either the error line
    with the message of the failed call, or the query line with the song
    name, the count line and four lines for each of at most two tracks;
    the text [undefined] of an absent property is never what it prints
    for the query or the error. *)
Theorem X10_basicSearch_output (numberToString : Z -> string) (w : World) :
  let r := searchAndGetLinks w (Some "Shape of You") (ArgNumber 2) None in
  let header :=
    Example.console_log (Example.newline ++ "=== Example 1: Basic Search ===") in
  (success r = false ->
     exists message,
       error r = Some message /\
       Example.basicSearch numberToString w =
         [header; Example.console_error ("Search failed: " ++ message)]) /\
  (success r = true ->
     (List.length (results r) <= 2)%nat /\
     Example.basicSearch numberToString w =
       header ::
       Example.console_log "Search Query: Shape of You" ::
       Example.console_log
         ("Found " ++ numberToString (Z.of_nat (List.length (results r)))
          ++ " track(s):" ++ Example.newline) ::
       Example.forEachIndexed (Example.basicSearch_track numberToString) 0 (results r) /\
     List.length (Example.basicSearch numberToString w) =
       (3 + 4 * List.length (results r))%nat).
Proof.
  intros r header. subst r. split.
  - intros Hfalse. destruct (failure_has_error _ _ _ _ Hfalse) as [message Hm].
    exists message. split; [exact Hm|].
    unfold Example.basicSearch. cbv zeta. now rewrite Hfalse, Hm.
  - intros Hsuccess.
    destruct (success_has_query _ _ _ _ Hsuccess) as [Hq [items [_ Hlen]]].
    assert (Hout : Example.basicSearch numberToString w =
       header ::
       Example.console_log "Search Query: Shape of You" ::
       Example.console_log
         ("Found " ++ numberToString
            (Z.of_nat (List.length
               (results (searchAndGetLinks w (Some "Shape of You") (ArgNumber 2) None))))
          ++ " track(s):" ++ Example.newline) ::
       Example.forEachIndexed (Example.basicSearch_track numberToString) 0
         (results (searchAndGetLinks w (Some "Shape of You") (ArgNumber 2) None))).
    { unfold Example.basicSearch. cbv zeta. now rewrite Hsuccess, Hq. }
    split; [|split; [exact Hout|]].
    + pose proof (slice0_length_le_limit items 2) as Hle.
      change (effectiveLimit (ArgNumber 2) None) with 2 in Hlen. lia.
    + rewrite Hout. simpl.
      rewrite (forEachIndexed_length _ 4); [lia | reflexivity].
Qed.

(** X11. [searchWithArtist] asks for one track: it prints the error line
    only when the call failed, with the message of the call; when the
    call succeeded there is exactly one track and it prints the qualified
    query and that track. *)
Theorem X11_searchWithArtist_output (numberToString : Z -> string) (w : World) :
  let r := searchAndGetLinks w (Some "Bohemian Rhapsody") (ArgString "Queen") (Some 1) in
  let header :=
    Example.console_log (Example.newline ++ "=== Example 2: Search with Artist ===") in
  (success r = false ->
     exists message,
       error r = Some message /\
       Example.searchWithArtist numberToString w =
         [header; Example.console_error ("Search failed: " ++ message)]) /\
  (success r = true ->
     exists track,
       results r = [track] /\
       Example.searchWithArtist numberToString w =
         header ::
         Example.console_log
           ("Search Query: track:" ++ dquote ++ "Bohemian Rhapsody" ++ dquote
            ++ " artist:" ++ dquote ++ "Queen" ++ dquote) ::
         Example.console_log (Example.newline ++ "Found: " ++ name track) ::
         Example.console_log
           ("Album: " ++ albumName track ++ " (" ++ releaseDate track ++ ")") ::
         Example.console_log
           ("Duration: " ++ numberToString ((durationMs track + 500) / 1000) ++ "s") ::
         Example.console_log ("Spotify URL: " ++ spotifyUrl track) ::
         match previewUrls track with
         | [] => []
         | urls =>
             Example.console_log (Example.newline ++ "Preview URLs:") ::
             map (fun url => Example.console_log ("  - " ++ url)) urls
         end).
Proof.
  intros r header. subst r. split.
  - intros Hfalse. destruct (failure_has_error _ _ _ _ Hfalse) as [message Hm].
    exists message. split; [exact Hm|].
    unfold Example.searchWithArtist. cbv zeta. now rewrite Hfalse, Hm.
  - intros Hsuccess.
    destruct (success_has_query _ _ _ _ Hsuccess) as [Hq _].
    destruct (success_limit_one w "Bohemian Rhapsody" (ArgString "Queen") (Some 1)
                                eq_refl Hsuccess) as [track Htrack].
    exists track. split; [exact Htrack|].
    unfold Example.searchWithArtist. cbv zeta. rewrite Hsuccess, Htrack, Hq.
    reflexivity.
Qed.

(** X12. [typeSafetyExample] asks for one track: after its header it
    prints one line, the line of the single track when the call succeeded
    and otherwise the error line with the message of the call. *)
Theorem X12_typeSafetyExample_output (numberToString : Z -> string) (w : World) :
  let r := searchAndGetLinks w (Some "Test") (ArgNumber 1) None in
  let header :=
    Example.console_log
      (Example.newline ++ "=== Example 4: TypeScript Type Safety ===") in
  (success r = false ->
     exists message,
       error r = Some message /\
       Example.typeSafetyExample numberToString w =
         [header; Example.console_error ("Error: " ++ message)]) /\
  (success r = true ->
     exists track,
       results r = [track] /\
       Example.typeSafetyExample numberToString w =
         [header;
          Example.console_log
            ("Track: " ++ name track ++ ", Duration: "
             ++ numberToString (durationMs track) ++ "ms, URLs: "
             ++ numberToString (Z.of_nat (List.length (previewUrls track))))]).
Proof.
  intros r header. subst r. split.
  - intros Hfalse. destruct (failure_has_error _ _ _ _ Hfalse) as [message Hm].
    exists message. split; [exact Hm|].
    unfold Example.typeSafetyExample. cbv zeta. now rewrite Hfalse, Hm.
  - intros Hsuccess.
    destruct (success_limit_one w "Test" (ArgNumber 1) None eq_refl Hsuccess)
      as [track Htrack].
    exists track. split; [exact Htrack|].
    unfold Example.typeSafetyExample. cbv zeta. rewrite Hsuccess, Htrack.
    reflexivity.
Qed.
